(** * jobpool: the worker pool of [job_pool.h] / [job_pool.cc] and the
    resolver wrapper of [dns_resolver.h]

    The pool is embedded as an interleaving transition system over the
    members of [class JobPool].  Every thread has a program point; an event
    names the thread that moves; a schedule is a list of events.

    One step is one access to shared memory that another thread can observe:
    an atomic load or store, or a block that runs under [queue_mutex_] and
    reads no atomic that is written outside the mutex.  [paused_] is stored
    without the mutex ([Pause], [Resume]), so the two places where a worker
    reads it are separate steps; [stop_flag_] is stored under the mutex only,
    so its reads inside a critical section are merged with their neighbours;
    [active_jobs_] is changed outside the mutex, one step each.
    [last_exception_] is written at line 68 without the mutex and read at
    line 31 under it; each access is one step.

    [condition_.wait(lock, pred)] is [while (!pred()) wait(lock)].  The
    predicate is evaluated with the mutex held; when it fails, the thread
    calls [wait(lock)], which releases the mutex and blocks in one step.
    Between the two the thread still holds the mutex and is not yet among
    the threads a notification reaches: a [notify_all] that is issued without
    the mutex ([Resume], line 72 of the worker) in that window does not wake
    it.  A blocked thread leaves the wait when it is notified or wakes
    spuriously, and then has to take the mutex and evaluate the predicate
    again.  Notifications may therefore come at any time in a schedule; the
    calls of the interface are particular schedules.

    The step of a worker at line 66 is the whole call [job()], from entry to
    its return or throw.  A call that never returns is a worker that stays
    at line 66: no event of that worker is scheduled again.  The statements
    about every schedule cover such a job; a statement that exhibits a
    schedule in which a worker passes line 66 is about a job whose call
    ends. *)

From Stdlib Require Import ZArith Lia.
From stdpp Require Import base tactics option list strings sorting.

Set Default Proof Using "Type".

(** ** Data model *)

(** What a captured [std::exception_ptr] refers to: the message of the
    exception object. *)
Definition exception : Type := string.

(** A job is a [std::function<void()>].  The pool observes one thing of it:
    how the call ends, by returning or by throwing.  [job_id] is the
    identity of the closure; it lets the histories below tell jobs apart. *)
Inductive job_body : Type :=
| Returns
| Throws (e : exception).

Record Job : Type := mkJob { job_id : nat; job_call : job_body }.

#[global] Instance job_body_eq_dec : EqDecision job_body.
Proof. solve_decision. Defined.
#[global] Instance Job_eq_dec : EqDecision Job.
Proof. solve_decision. Defined.

(** Program points of [JobPool::WorkerThread] (line numbers of job_pool.cc). *)
Inductive worker_pc : Type :=
| WLoop                    (* 51: while (!stop_flag_.load()) *)
| WWait                    (* 54-58: lock, evaluate the wait predicate *)
| WToBlock                 (* predicate false, mutex held, wait(lock) next *)
| WBlocked                 (* inside wait(lock), mutex released *)
| WCheckPaused             (* 59: if (paused_.load()) continue; mutex held *)
| WCheckEmpty              (* 60-63: empty test, front/pop, unlock *)
| WInc (j : Job)           (* 64: active_jobs_++ *)
| WRun (j : Job)           (* 66: job() *)
| WCatch (e : exception)   (* 68: last_exception_ = current_exception() *)
| WDec                     (* 71: active_jobs_-- *)
| WNotify                  (* 72: condition_.notify_all() *)
| WExit.                   (* returned from WorkerThread *)

(** Program points of a caller inside [JobPool::WaitForAllJobs]. *)
Inductive waiter_pc : Type :=
| JWait                    (* 27-30: lock, evaluate the drained predicate *)
| JToBlock                 (* predicate false, mutex held, wait(lock) next *)
| JBlocked                 (* inside wait(lock), mutex released *)
| JCheckErr                (* 31: if (last_exception_), mutex held *)
| JReturned                (* returned normally *)
| JRaised (e : exception). (* 32: std::rethrow_exception *)

(** Program points of [JobPool::~JobPool]. *)
Inductive dtor_pc : Type :=
| DAlive                   (* destructor not entered *)
| DNotify                  (* 18: condition_.notify_all() *)
| DJoin (n : nat)          (* 19-23: about to join threads_[n] *)
| DDone.                   (* destructor returned *)

#[global] Instance worker_pc_eq_dec : EqDecision worker_pc.
Proof. solve_decision. Defined.
#[global] Instance waiter_pc_eq_dec : EqDecision waiter_pc.
Proof. solve_decision. Defined.
#[global] Instance dtor_pc_eq_dec : EqDecision dtor_pc.
Proof. solve_decision. Defined.

(** [std::atomic<size_t>]: arithmetic is modulo 2^64. *)
Definition SIZE_MOD : Z := 2 ^ 64.

(** The members of [class JobPool], the callers that are inside
    [WaitForAllJobs], the destructor, and five histories that the code does
    not keep but the properties speak about. *)
Record JobPool : Type := mkPool {
  threads_ : list worker_pc;          (* std::vector<std::thread> *)
  jobs_ : list Job;                   (* std::queue: front is the head *)
  queue_mutex_ : bool;                (* true while some thread holds it *)
  stop_flag_ : bool;
  active_jobs_ : Z;
  paused_ : bool;
  last_exception_ : option exception; (* None is the null exception_ptr *)
  waiters : list waiter_pc;
  dtor : dtor_pc;
  submitted : list Job;               (* in the order of emplace *)
  dequeued : list Job;                (* in the order of pop *)
  executed : list Job;                (* in the order job() was entered *)
  raised : list exception;            (* in the order jobs threw *)
  recorded : list exception           (* in the order of line 68 *)
}.

(** [JobPool::JobPool(num_threads)]: [num_threads] workers, each at the head
    of its loop; every other member has its default initialiser. *)
Definition JobPool_new (num_threads : nat) : JobPool :=
  {| threads_ := replicate num_threads WLoop; jobs_ := [];
     queue_mutex_ := false; stop_flag_ := false; active_jobs_ := 0%Z;
     paused_ := false; last_exception_ := None; waiters := []; dtor := DAlive;
     submitted := []; dequeued := []; executed := []; raised := [];
     recorded := [] |}.

(** ** Field updates *)

Definition set_threads (v : list worker_pc) (s : JobPool) : JobPool :=
  mkPool v (jobs_ s) (queue_mutex_ s) (stop_flag_ s) (active_jobs_ s)
    (paused_ s) (last_exception_ s) (waiters s) (dtor s) (submitted s)
    (dequeued s) (executed s) (raised s) (recorded s).
Definition set_jobs (v : list Job) (s : JobPool) : JobPool :=
  mkPool (threads_ s) v (queue_mutex_ s) (stop_flag_ s) (active_jobs_ s)
    (paused_ s) (last_exception_ s) (waiters s) (dtor s) (submitted s)
    (dequeued s) (executed s) (raised s) (recorded s).
Definition set_mutex (v : bool) (s : JobPool) : JobPool :=
  mkPool (threads_ s) (jobs_ s) v (stop_flag_ s) (active_jobs_ s)
    (paused_ s) (last_exception_ s) (waiters s) (dtor s) (submitted s)
    (dequeued s) (executed s) (raised s) (recorded s).
Definition set_stop (v : bool) (s : JobPool) : JobPool :=
  mkPool (threads_ s) (jobs_ s) (queue_mutex_ s) v (active_jobs_ s)
    (paused_ s) (last_exception_ s) (waiters s) (dtor s) (submitted s)
    (dequeued s) (executed s) (raised s) (recorded s).
Definition set_active (v : Z) (s : JobPool) : JobPool :=
  mkPool (threads_ s) (jobs_ s) (queue_mutex_ s) (stop_flag_ s) v
    (paused_ s) (last_exception_ s) (waiters s) (dtor s) (submitted s)
    (dequeued s) (executed s) (raised s) (recorded s).
Definition set_paused (v : bool) (s : JobPool) : JobPool :=
  mkPool (threads_ s) (jobs_ s) (queue_mutex_ s) (stop_flag_ s)
    (active_jobs_ s) v (last_exception_ s) (waiters s) (dtor s) (submitted s)
    (dequeued s) (executed s) (raised s) (recorded s).
Definition set_last_exception (v : option exception) (s : JobPool) : JobPool :=
  mkPool (threads_ s) (jobs_ s) (queue_mutex_ s) (stop_flag_ s)
    (active_jobs_ s) (paused_ s) v (waiters s) (dtor s) (submitted s)
    (dequeued s) (executed s) (raised s) (recorded s).
Definition set_waiters (v : list waiter_pc) (s : JobPool) : JobPool :=
  mkPool (threads_ s) (jobs_ s) (queue_mutex_ s) (stop_flag_ s)
    (active_jobs_ s) (paused_ s) (last_exception_ s) v (dtor s) (submitted s)
    (dequeued s) (executed s) (raised s) (recorded s).
Definition set_dtor (v : dtor_pc) (s : JobPool) : JobPool :=
  mkPool (threads_ s) (jobs_ s) (queue_mutex_ s) (stop_flag_ s)
    (active_jobs_ s) (paused_ s) (last_exception_ s) (waiters s) v
    (submitted s) (dequeued s) (executed s) (raised s) (recorded s).
Definition log_submitted (js : list Job) (s : JobPool) : JobPool :=
  mkPool (threads_ s) (jobs_ s) (queue_mutex_ s) (stop_flag_ s)
    (active_jobs_ s) (paused_ s) (last_exception_ s) (waiters s) (dtor s)
    (submitted s ++ js) (dequeued s) (executed s) (raised s) (recorded s).
Definition log_dequeued (j : Job) (s : JobPool) : JobPool :=
  mkPool (threads_ s) (jobs_ s) (queue_mutex_ s) (stop_flag_ s)
    (active_jobs_ s) (paused_ s) (last_exception_ s) (waiters s) (dtor s)
    (submitted s) (dequeued s ++ [j]) (executed s) (raised s) (recorded s).
Definition log_executed (j : Job) (s : JobPool) : JobPool :=
  mkPool (threads_ s) (jobs_ s) (queue_mutex_ s) (stop_flag_ s)
    (active_jobs_ s) (paused_ s) (last_exception_ s) (waiters s) (dtor s)
    (submitted s) (dequeued s) (executed s ++ [j]) (raised s) (recorded s).
Definition log_raised (e : exception) (s : JobPool) : JobPool :=
  mkPool (threads_ s) (jobs_ s) (queue_mutex_ s) (stop_flag_ s)
    (active_jobs_ s) (paused_ s) (last_exception_ s) (waiters s) (dtor s)
    (submitted s) (dequeued s) (executed s) (raised s ++ [e]) (recorded s).
Definition log_recorded (e : exception) (s : JobPool) : JobPool :=
  mkPool (threads_ s) (jobs_ s) (queue_mutex_ s) (stop_flag_ s)
    (active_jobs_ s) (paused_ s) (last_exception_ s) (waiters s) (dtor s)
    (submitted s) (dequeued s) (executed s) (raised s) (recorded s ++ [e]).

Definition at_pc (i : nat) (pc : worker_pc) (s : JobPool) : JobPool :=
  set_threads (<[i := pc]> (threads_ s)) s.
Definition at_waiter (n : nat) (pc : waiter_pc) (s : JobPool) : JobPool :=
  set_waiters (<[n := pc]> (waiters s)) s.

(** ** The condition variable *)

(** The threads blocked on [condition_] are the workers at [WBlocked] and the
    callers at [JBlocked].  A woken thread has to take the mutex again and
    evaluate its predicate again: it is back at [WWait] / [JWait].  A thread
    at [WToBlock] / [JToBlock] has not entered [wait(lock)] yet and is not
    woken. *)
Definition wake_worker (pc : worker_pc) : worker_pc :=
  match pc with WBlocked => WWait | _ => pc end.
Definition wake_waiter (pc : waiter_pc) : waiter_pc :=
  match pc with JBlocked => JWait | _ => pc end.

Definition notify_all (s : JobPool) : JobPool :=
  set_threads (wake_worker <$> threads_ s)
    (set_waiters (wake_waiter <$> waiters s) s).

Inductive thread : Type :=
| TWorker (i : nat)
| TWaiter (n : nat).

(** One blocked thread leaves the wait: the one [notify_one] picked, or one
    that woke spuriously. *)
Definition wake_one (t : thread) (s : JobPool) : option JobPool :=
  match t with
  | TWorker i =>
      match threads_ s !! i with
      | Some WBlocked => Some (at_pc i WWait s)
      | _ => None
      end
  | TWaiter n =>
      match waiters s !! n with
      | Some JBlocked => Some (at_waiter n JWait s)
      | _ => None
      end
  end.

(** ** The predicates of the two waits *)

Definition is_empty (q : list Job) : bool :=
  match q with [] => true | _ :: _ => false end.

(** job_pool.cc:56 *)
Definition worker_pred (s : JobPool) : bool :=
  stop_flag_ s || negb (is_empty (jobs_ s)) || negb (paused_ s).

(** job_pool.cc:29, the drained predicate *)
Definition drained (s : JobPool) : bool :=
  is_empty (jobs_ s) && (active_jobs_ s =? 0)%Z.

(** ** Steps *)

(** One step of worker [i] ([JobPool::WorkerThread]).  [None]: the worker
    cannot move (it needs the mutex, it is blocked, or it has returned).
    At [WWait] the worker takes the mutex and evaluates the predicate of
    line 56; when [stop_flag_] is set it leaves the critical section at once
    (line 58), so the step ends with the mutex free again. *)
Definition worker_step (i : nat) (s : JobPool) : option JobPool :=
  match threads_ s !! i with
  | None => None
  | Some WLoop =>
      Some (at_pc i (if stop_flag_ s then WExit else WWait) s)
  | Some WWait =>
      if queue_mutex_ s then None
      else if worker_pred s then
        if stop_flag_ s then Some (at_pc i WExit s)
        else Some (set_mutex true (at_pc i WCheckPaused s))
      else Some (set_mutex true (at_pc i WToBlock s))
  | Some WToBlock => Some (set_mutex false (at_pc i WBlocked s))
  | Some WBlocked => None
  | Some WCheckPaused =>
      if paused_ s then Some (set_mutex false (at_pc i WLoop s))
      else Some (at_pc i WCheckEmpty s)
  | Some WCheckEmpty =>
      match jobs_ s with
      | [] => Some (set_mutex false (at_pc i WLoop s))
      | j :: q =>
          Some (set_mutex false
                  (at_pc i (WInc j) (set_jobs q (log_dequeued j s))))
      end
  | Some (WInc j) =>
      Some (at_pc i (WRun j)
              (set_active ((active_jobs_ s + 1) mod SIZE_MOD)%Z s))
  | Some (WRun j) =>
      match job_call j with
      | Returns => Some (at_pc i WDec (log_executed j s))
      | Throws e =>
          Some (at_pc i (WCatch e) (log_raised e (log_executed j s)))
      end
  | Some (WCatch e) =>
      Some (at_pc i WDec (set_last_exception (Some e) (log_recorded e s)))
  | Some WDec =>
      Some (at_pc i WNotify
              (set_active ((active_jobs_ s - 1) mod SIZE_MOD)%Z s))
  | Some WNotify => Some (notify_all (at_pc i WLoop s))
  | Some WExit => None
  end.

(** One step of the [n]-th caller of [JobPool::WaitForAllJobs].  Lines 31
    and 32 both read [last_exception_]; a record that falls between the two
    reads has the effect of this step taken after it. *)
Definition waiter_step (n : nat) (s : JobPool) : option JobPool :=
  match waiters s !! n with
  | None => None
  | Some JWait =>
      if queue_mutex_ s then None
      else if drained s then Some (set_mutex true (at_waiter n JCheckErr s))
      else Some (set_mutex true (at_waiter n JToBlock s))
  | Some JToBlock => Some (set_mutex false (at_waiter n JBlocked s))
  | Some JBlocked => None
  | Some JCheckErr =>
      Some (set_mutex false
              (at_waiter n
                 match last_exception_ s with
                 | Some e => JRaised e
                 | None => JReturned
                 end s))
  | Some JReturned => None
  | Some (JRaised _) => None
  end.

(** One step of [JobPool::~JobPool].  [thread.join()] returns once the
    thread has returned from [WorkerThread]; every element of [threads_]
    was started by the constructor, so [joinable()] holds until then. *)
Definition dtor_step (s : JobPool) : option JobPool :=
  match dtor s with
  | DAlive =>
      if queue_mutex_ s then None
      else Some (set_dtor DNotify (set_stop true s))
  | DNotify => Some (set_dtor (DJoin 0) (notify_all s))
  | DJoin n =>
      match threads_ s !! n with
      | None => Some (set_dtor DDone s)
      | Some WExit => Some (set_dtor (DJoin (S n)) s)
      | Some _ => None
      end
  | DDone => None
  end.

(** The critical section of [AddJob] (job_pool.h:30-33) and of [AddJobs]
    (job_pool.h:41-46): the jobs go to the back of the queue. *)
Definition enqueue (js : list Job) (s : JobPool) : option JobPool :=
  if queue_mutex_ s then None
  else Some (set_jobs (jobs_ s ++ js) (log_submitted js s)).

(** What the scheduler can pick next. *)
Inductive event : Type :=
| EvWorker (i : nat)          (* worker i takes a step *)
| EvAddJob (j : Job)          (* AddJob: the emplace under the mutex *)
| EvAddJobs (js : list Job)   (* AddJobs: the emplace loop under the mutex *)
| EvWake (t : thread)         (* notify_one reaches t, or t wakes spuriously *)
| EvNotifyAll                 (* condition_.notify_all() of AddJobs, Resume *)
| EvPause                     (* Pause: paused_.store(true) *)
| EvResume                    (* Resume: paused_.store(false) *)
| EvWaitForAllJobs            (* a caller enters WaitForAllJobs *)
| EvWaiter (n : nat)          (* the n-th such caller takes a step *)
| EvDestroy.                  (* the destructor takes a step *)

Definition step (ev : event) (s : JobPool) : option JobPool :=
  match ev with
  | EvWorker i => worker_step i s
  | EvAddJob j => enqueue [j] s
  | EvAddJobs js => enqueue js s
  | EvWake t => wake_one t s
  | EvNotifyAll => Some (notify_all s)
  | EvPause => Some (set_paused true s)
  | EvResume => Some (set_paused false s)
  | EvWaitForAllJobs => Some (set_waiters (waiters s ++ [JWait]) s)
  | EvWaiter n => waiter_step n s
  | EvDestroy => dtor_step s
  end.

(** A schedule is a list of events; [run] follows it. *)
Fixpoint run (tr : list event) (s : JobPool) : option JobPool :=
  match tr with
  | [] => Some s
  | ev :: tr' =>
      match step ev s with
      | Some s' => run tr' s'
      | None => None
      end
  end.

Definition reachable (num_threads : nat) (s : JobPool) : Prop :=
  ∃ tr, run tr (JobPool_new num_threads) = Some s.

(** The calls of the public interface as schedules of their steps (other
    threads may run between the steps). *)
Definition AddJob (j : Job) (woken : option thread) : list event :=
  EvAddJob j :: match woken with Some t => [EvWake t] | None => [] end.
Definition AddJobs (js : list Job) : list event := [EvAddJobs js; EvNotifyAll].
Definition Pause : list event := [EvPause].
Definition Resume : list event := [EvResume; EvNotifyAll].

(** The accessors. *)
Definition GetQueueSize (s : JobPool) : option nat :=
  if queue_mutex_ s then None else Some (length (jobs_ s)).
Definition GetThreadCount (s : JobPool) : nat := length (threads_ s).
Definition GetActiveJobCount (s : JobPool) : Z := active_jobs_ s.

(** ** Measures over the worker table *)

(** The worker holds [queue_mutex_]. *)
Definition w_holds (pc : worker_pc) : nat :=
  match pc with WToBlock | WCheckPaused | WCheckEmpty => 1 | _ => 0 end.
Definition j_holds (pc : waiter_pc) : nat :=
  match pc with JToBlock | JCheckErr => 1 | _ => 0 end.
(** The worker is between its increment and its decrement of
    [active_jobs_]. *)
Definition w_active (pc : worker_pc) : nat :=
  match pc with WRun _ | WCatch _ | WDec => 1 | _ => 0 end.
(** The worker took job [j] off the queue and has not entered it yet. *)
Definition w_holding (j : Job) (pc : worker_pc) : nat :=
  match pc with
  | WInc j' | WRun j' => if decide (j' = j) then 1 else 0
  | _ => 0
  end.
(** The worker is blocked on [condition_]. *)
Definition w_blocked (pc : worker_pc) : nat :=
  match pc with WBlocked => 1 | _ => 0 end.
(** The worker's job threw [e] and line 68 has not run yet. *)
Definition w_pending (e : exception) (pc : worker_pc) : nat :=
  match pc with
  | WCatch e' => if decide (e' = e) then 1 else 0
  | _ => 0
  end.
(** The worker has passed the pause test of line 59 and still holds the
    mutex. *)
Definition w_past_gate (pc : worker_pc) : nat :=
  match pc with WCheckEmpty => 1 | _ => 0 end.
(** The spec's [Running] state: a job was dequeued and the worker is not
    back at the head of its loop. *)
Definition w_running (pc : worker_pc) : nat :=
  match pc with
  | WInc _ | WRun _ | WCatch _ | WDec | WNotify => 1
  | _ => 0
  end.

Definition total (f : worker_pc → nat) (s : JobPool) : nat :=
  sum_list_with f (threads_ s).
Definition occ {A} `{EqDecision A} (x : A) (l : list A) : nat :=
  length (filter (λ y, y = x) l).

(** A caller that cannot return normally any more: it has not, and when it
    is at line 31 there is a failure to rethrow. *)
Definition will_raise (s : JobPool) (n : nat) : Prop :=
  waiters s !! n ≠ Some JReturned ∧
  (waiters s !! n = Some JCheckErr → is_Some (last_exception_ s)).

(** ** The invariant of the reachable states *)

Definition dtor_ok (s : JobPool) : Prop :=
  match dtor s with
  | DAlive => stop_flag_ s = false
  | DNotify => stop_flag_ s = true
  | DJoin n =>
      stop_flag_ s = true ∧ total w_blocked s = 0 ∧
      ∀ i, i < n → threads_ s !! i = Some WExit
  | DDone =>
      stop_flag_ s = true ∧ total w_blocked s = 0 ∧
      ∀ i pc, threads_ s !! i = Some pc → pc = WExit
  end.

Record Inv (num_threads : nat) (s : JobPool) : Prop := mkInv {
  (* threads_ never changes its size *)
  inv_len : length (threads_ s) = num_threads;
  (* mutual exclusion: the mutex is held by exactly the thread that is
     inside a critical section *)
  inv_mutex :
    total w_holds s + sum_list_with j_holds (waiters s)
    = if queue_mutex_ s then 1 else 0;
  (* active_jobs_ counts the workers between lines 64 and 71; it cannot
     wrap around because num_threads is a size_t *)
  inv_active :
    (Z.of_nat num_threads < SIZE_MOD)%Z →
    active_jobs_ s = Z.of_nat (total w_active s);
  (* with stop_flag_ set no worker is inside a critical section *)
  inv_stop : stop_flag_ s = true → total w_holds s = 0;
  (* the queue is what was submitted and not yet taken *)
  inv_fifo : submitted s = dequeued s ++ jobs_ s;
  (* a dequeued job was entered or is in a worker's hands *)
  inv_exec :
    ∀ j, occ j (dequeued s) = occ j (executed s) + total (w_holding j) s;
  (* a thrown exception was recorded or is about to be *)
  inv_raise :
    ∀ e, occ e (raised s) = occ e (recorded s) + total (w_pending e) s;
  (* last_exception_ is the latest record *)
  inv_last : last_exception_ s = last (recorded s);
  (* a worker returns only when it saw stop_flag_ *)
  inv_exit : ∀ i, threads_ s !! i = Some WExit → stop_flag_ s = true;
  inv_dtor : dtor_ok s
}.

(** ** Schedules that the statements use *)

(** Worker [i] runs alone from the head of its loop until it is back there
    with one job done: lines 51, 54-58, 59, 60-63, 64, 66, (68,) 71, 72. *)
Definition worker_cycle (i : nat) (j : Job) : list event :=
  replicate (match job_call j with Returns => 8 | Throws _ => 9 end)
    (EvWorker i).

Definition solo_schedule (i : nat) (js : list Job) : list event :=
  js ≫= worker_cycle i.

(** The exceptions a list of jobs throws, in order. *)
Definition failures (js : list Job) : list exception :=
  omap (λ j, match job_call j with Throws e => Some e | Returns => None end) js.

(** How many steps take worker [i] from [pc] to its next pop when nobody
    else moves. *)
Definition steps_to_pop (pc : worker_pc) : nat :=
  match pc with
  | WLoop => 4
  | WWait | WBlocked => 3
  | _ => 0
  end.

(** How many steps take a worker that has popped a job from [pc] back to
    the head of its loop: lines 64, 66, (68,) 71, 72. *)
Definition steps_to_loop (pc : worker_pc) : nat :=
  match pc with
  | WInc j => match job_call j with Returns => 4 | Throws _ => 5 end
  | WRun j => match job_call j with Returns => 3 | Throws _ => 4 end
  | WCatch _ => 3
  | WDec => 2
  | WNotify => 1
  | _ => 0
  end.

Definition no_resume (tr : list event) : Prop := EvResume ∉ tr.

(** Two sample jobs. *)
Definition job_ok : Job := mkJob 0 Returns.
Definition job_bad : Job := mkJob 1 (Throws "Test exception").

(** [AddJob(job_ok)], the single worker pops it and is preempted before
    line 64, then a caller runs [WaitForAllJobs] from start to end. *)
Definition race_schedule : list event :=
  AddJob job_ok None ++ replicate 4 (EvWorker 0)
  ++ [EvWaitForAllJobs; EvWaiter 0; EvWaiter 0].

(** A caller blocks in [WaitForAllJobs] on a non-empty queue (predicate,
    then [wait(lock)]), the worker pops the job and is preempted before
    line 64, the [notify_one] of [AddJob] reaches the caller. *)
Definition blocked_waiter_schedule : list event :=
  [EvAddJob job_ok; EvWaitForAllJobs; EvWaiter 0; EvWaiter 0]
  ++ replicate 4 (EvWorker 0) ++ [EvWake (TWaiter 0)].

(** [AddJobs] of two jobs; worker 1 pops the first and is about to enter
    it; then [Pause()] runs. *)
Definition paused_schedule : list event :=
  AddJobs [job_ok; job_bad] ++ replicate 5 (EvWorker 1) ++ Pause.

(** The worker passes the pause test of line 59, then [Pause()] runs. *)
Definition pause_race_schedule : list event :=
  AddJob job_ok None ++ replicate 3 (EvWorker 0) ++ Pause.

(** A first submit/drain cycle whose job throws, and a second one whose
    job does not. *)
Definition first_cycle_schedule : list event :=
  AddJob job_bad None ++ worker_cycle 0 job_bad
  ++ [EvWaitForAllJobs; EvWaiter 0; EvWaiter 0].
Definition second_cycle_schedule : list event :=
  AddJob job_ok None ++ worker_cycle 0 job_ok
  ++ [EvWaitForAllJobs; EvWaiter 1].

(** A job has thrown and was recorded; then a caller enters
    [WaitForAllJobs]. *)
Definition failed_then_wait_schedule : list event :=
  AddJob job_bad None ++ worker_cycle 0 job_bad ++ [EvWaitForAllJobs].

(** [AddJobs] of two jobs, then the destructor up to its store of
    [stop_flag_]; and the rest of the teardown with the worker coming by
    line 51. *)
Definition teardown_schedule : list event :=
  AddJobs [job_ok; job_bad] ++ [EvDestroy].
Definition teardown_rest_schedule : list event :=
  [EvDestroy; EvWorker 0; EvDestroy; EvDestroy].

(** Three jobs in one [AddJobs], two of them throwing. *)
Definition isolation_schedule : list event :=
  AddJobs [job_bad; job_ok; job_bad].

(** The worker is about to pop, or has popped a job and not entered it. *)
Definition w_unstarted (pc : worker_pc) : nat :=
  match pc with WCheckEmpty | WInc _ | WRun _ => 1 | _ => 0 end.

(** The job a worker has popped and not entered yet, if any. *)
Definition held_jobs (pc : worker_pc) : list Job :=
  match pc with WInc j | WRun j => [j] | _ => [] end.

(** How many steps a worker at [pc] needs to return from [WorkerThread] once
    [stop_flag_] is set and the mutex is free (0 where it cannot move). *)
Definition steps_to_exit (pc : worker_pc) : nat :=
  match pc with
  | WLoop | WWait => 1
  | WInc j => match job_call j with Returns => 5 | Throws _ => 6 end
  | WRun j => match job_call j with Returns => 4 | Throws _ => 5 end
  | WCatch _ => 4
  | WDec => 3
  | WNotify => 2
  | _ => 0
  end.

(** The events of the pool's own threads: a worker or the destructor. *)
Definition pool_event (ev : event) : Prop :=
  match ev with EvWorker _ | EvDestroy => True | _ => False end.

(** The events of the workers. *)
Definition worker_event (ev : event) : Prop :=
  match ev with EvWorker _ => True | _ => False end.

(** The worker is inside its only job when a caller enters [WaitForAllJobs]
    and finds [active_jobs_] at 1; before the caller enters [wait(lock)] the
    worker runs lines 71 and 72; then the caller enters the wait. *)
Definition lost_wakeup_schedule : list event :=
  AddJob job_ok None ++ replicate 6 (EvWorker 0)
  ++ [EvWaitForAllJobs; EvWaiter 0]
  ++ replicate 2 (EvWorker 0) ++ [EvWaiter 0].

(** [Pause()]; the worker finds the pool paused and the queue empty; before
    it enters [wait(lock)], [Resume()] runs; then the worker enters the
    wait. *)
Definition lost_resume_schedule : list event :=
  Pause ++ replicate 2 (EvWorker 0) ++ Resume ++ [EvWorker 0].

(** ** dns_resolver.h *)

Module DnsResolver.

(** What a C++ call can throw here: [boost::system::system_error], which
    line 19 catches, or anything else. *)
Inductive cxx_exception : Type :=
| system_error (what : string)
| other_exception (what : string).

(** A call returns a value or leaves by an exception.  It is also the shared
    state of a [std::future] once ready: [get()] returns the value or
    rethrows. *)
Inductive outcome (A : Type) : Type :=
| Value (a : A)
| Thrown (e : cxx_exception).
Arguments Value {A} a.
Arguments Thrown {A} e.

Section resolve.
(** [boost::asio::ip::address], its [to_string()], and
    [tcp::resolver::resolve(host, service)] are Boost's. *)
Variable address : Type.
Variable to_string : address → string.
Variable resolver_resolve : string → string → outcome (list address).

(** The lambda of dns_resolver.h:12-23. *)
Definition resolve_task (hostname : string) : outcome string :=
  match resolver_resolve hostname "" with
  | Value (a :: _) => Value (to_string a)
  | Value [] => Value "No results"
  | Thrown (system_error what) => Value ("Error: " +:+ what)
  | Thrown e => Thrown e
  end.

(** [std::async(std::launch::async, ...)]: the future holds what the task
    produced. *)
Definition resolve (hostname : string) : outcome string :=
  resolve_task hostname.

End resolve.

(** A sample resolver: one numeric host resolves to itself, the empty name
    to nothing, everything else is not found. *)
Definition sample_resolver (host service : string) : outcome (list string) :=
  if decide (host = "10.255.255.1") then Value ["10.255.255.1"]
  else if decide (host = "") then Value []
  else Thrown (system_error "resolve: Host not found (authoritative)").

(** A resolver call that leaves by an exception of another type: the
    allocation of the result list fails. *)
Definition out_of_memory_resolver (host service : string)
    : outcome (list string) :=
  Thrown (other_exception "std::bad_alloc").

End DnsResolver.

(** ** The sample workloads (dns_resolver.h:43-73) *)

Module Workloads.

(** [uint64_t] arithmetic is modulo 2^64; [int] is 32 bits wide. *)
Definition UINT64_MOD : Z := 2 ^ 64.
Definition INT_MAX : Z := 2147483647.

(** The loop of [fibonacci] (lines 46-50) with [count] iterations to go. *)
Fixpoint fib_loop (count : nat) (a b : Z) : Z :=
  match count with
  | O => b
  | S c => fib_loop c b ((a + b) mod UINT64_MOD)%Z
  end.

(** [uint64_t fibonacci(int n)].  For [n <= 1] the [int] is converted to
    [uint64_t].  Otherwise [i] runs from 2 to [n]; with [n = INT_MAX] the
    last [++i] overflows an [int], which leaves the result undefined
    ([None]). *)
Definition fibonacci (n : Z) : option Z :=
  if (n <=? 1)%Z then Some (n mod UINT64_MOD)%Z
  else if (n =? INT_MAX)%Z then None
  else Some (fib_loop (Z.to_nat (n - 1)) 0 1).

(** The Fibonacci numbers, to compare with. *)
Fixpoint fib (n : nat) : Z :=
  match n with
  | O => 0
  | S m => match m with
           | O => 1
           | S p => fib m + fib p
           end
  end%Z.

(** Two consecutive Fibonacci numbers at once, in linear time. *)
Fixpoint fib_pair (n : nat) : Z * Z :=
  match n with
  | O => (0, 1)
  | S m => let '(a, b) := fib_pair m in (b, a + b)
  end%Z.

(** The inner loop of [prime_factorization] (lines 57-60),
    [while (n % i == 0)].  Every iteration at least halves [n], so for
    [n >= 1] it ends within [log2 n + 1] tests; for [n = 0] it never ends,
    and [i = 0] divides by zero: both are [None]. *)
Fixpoint divide_out_fuel (fuel : nat) (i n : Z) (factors : list Z)
    : option (Z * list Z) :=
  match fuel with
  | O => None
  | S f =>
      if (i =? 0)%Z then None
      else if (n mod i =? 0)%Z
      then divide_out_fuel f i (n / i)%Z (factors ++ [i])
      else Some (n, factors)
  end.

Definition divide_out (i n : Z) (factors : list Z) : option (Z * list Z) :=
  divide_out_fuel (S (Z.to_nat (Z.log2 n))) i n factors.

(** The outer loop (lines 56-61) and the final test (line 62).  [fuel]
    bounds the number of tests of [i * i <= n]; [None] when it is used
    up. *)
Fixpoint trial_loop (fuel : nat) (i n : Z) (factors : list Z)
    : option (list Z) :=
  match fuel with
  | O => None
  | S f =>
      if ((i * i) mod UINT64_MOD <=? n)%Z then
        match divide_out i n factors with
        | Some (n', factors') =>
            trial_loop f ((i + 1) mod UINT64_MOD)%Z n' factors'
        | None => None
        end
      else Some (if (1 <? n)%Z then factors ++ [n] else factors)
  end.

(** Below this bound, [(2^32 - 1)^2], the product [i * i] of the loop test
    never wraps around. *)
Definition NO_WRAP_BOUND : Z := (2 ^ 32 - 1) * (2 ^ 32 - 1).

(** No number from 2 up to, not including, [i] divides [n]: what the outer
    loop has established when it reaches [i]. *)
Definition no_divisor_below (i n : Z) : Prop :=
  ∀ d, (2 ≤ d < i)%Z → ¬ (d | n)%Z.

(** [std::vector<uint64_t> prime_factorization(uint64_t n)]. *)
Definition prime_factorization (fuel : nat) (n : Z) : option (list Z) :=
  trial_loop fuel 2 n [].

Definition product (l : list Z) : Z := foldr Z.mul 1%Z l.

(** One pass through the body of the loop of [collatz_steps] (line 69). *)
Definition collatz_next (n : Z) : Z :=
  if (n mod 2 =? 0)%Z then (n / 2)%Z else ((3 * n + 1) mod UINT64_MOD)%Z.

(** The loop of [collatz_steps] (lines 68-71).  [steps] is an [int]: counting
    past [INT_MAX] is undefined.  [None] when [fuel] tests of [n != 1] did
    not end the loop. *)
Fixpoint collatz_loop (fuel : nat) (n steps : Z) : option Z :=
  match fuel with
  | O => None
  | S f =>
      if (n =? 1)%Z then Some steps
      else if (steps =? INT_MAX)%Z then None
      else collatz_loop f (collatz_next n) (steps + 1)%Z
  end.

(** [int collatz_steps(uint64_t n)]. *)
Definition collatz_steps (fuel : nat) (n : Z) : option Z :=
  collatz_loop fuel n 0.

End Workloads.

(** * Proofs *)

(** ** Counting lemmas *)

Section counting.
Context {A : Type}.
Implicit Types (f : A → nat) (l : list A).

Lemma sum_list_with_insert f l i x y :
  l !! i = Some x →
  sum_list_with f (<[i := y]> l) + f x = sum_list_with f l + f y.
Proof.
  revert i. induction l as [|a l IH]; intros [|i] Hi; simplify_eq/=.
  - lia.
  - specialize (IH _ Hi). lia.
Qed.

Lemma sum_list_with_fmap_same f (g : A → A) l :
  (∀ x, f (g x) = f x) →
  sum_list_with f (g <$> l) = sum_list_with f l.
Proof. intros Hg. induction l as [|a l IH]; csimpl; [done|]. by rewrite Hg, IH. Qed.

Lemma sum_list_with_lookup f l i x :
  l !! i = Some x → f x ≤ sum_list_with f l.
Proof.
  revert i. induction l as [|a l IH]; intros [|i] Hi; simplify_eq/=.
  - lia.
  - specialize (IH _ Hi). lia.
Qed.

Lemma sum_list_with_le_length f l :
  (∀ x, f x ≤ 1) → sum_list_with f l ≤ length l.
Proof.
  intros Hf. induction l as [|a l IH]; simpl; [lia|].
  specialize (Hf a). lia.
Qed.

Lemma sum_list_with_zero f l :
  (∀ x, x ∈ l → f x = 0) → sum_list_with f l = 0.
Proof.
  induction l as [|a l IH]; intros Hf; simpl; [done|].
  rewrite (Hf a), IH; [done| |left].
  intros y Hy. apply Hf. by right.
Qed.

Lemma sum_list_with_replicate f n x :
  sum_list_with f (replicate n x) = n * f x.
Proof. induction n as [|n IH]; simpl; lia. Qed.

Context `{EqDecision A}.

Lemma occ_nil (x : A) : occ x [] = 0.
Proof. done. Qed.

Lemma occ_app (x : A) l1 l2 : occ x (l1 ++ l2) = occ x l1 + occ x l2.
Proof. unfold occ. by rewrite filter_app, length_app. Qed.

Lemma occ_cons (x y : A) l :
  occ x (y :: l) = (if decide (y = x) then 1 else 0) + occ x l.
Proof. unfold occ. rewrite filter_cons. by case_decide. Qed.

Lemma occ_snoc (x y : A) l :
  occ x (l ++ [y]) = occ x l + (if decide (y = x) then 1 else 0).
Proof. rewrite occ_app, occ_cons, occ_nil. lia. Qed.

End counting.

(** ** The invariant is preserved *)

Ltac unfold_set :=
  unfold total, at_pc, at_waiter, notify_all, set_threads, set_jobs, set_mutex,
    set_stop, set_active, set_paused, set_last_exception, set_waiters,
    set_dtor, log_submitted, log_dequeued, log_executed, log_raised,
    log_recorded in *; simpl in *.
Ltac step_cases H :=
  unfold step, worker_step, waiter_step, dtor_step, enqueue, wake_one in H;
  repeat match type of H with
  | context [match ?x with _ => _ end] =>
      let E := fresh "E" in destruct x eqn:E; try discriminate H
  end;
  injection H as <-; unfold_set.
Ltac ins f :=
  repeat match goal with
  | H : ?l !! ?i = Some ?x |- context [<[?i := ?y]> ?l] =>
      lazymatch goal with
      | _ : sum_list_with f (<[i := y]> l) + _ = _ |- _ => fail
      | _ => pose proof (sum_list_with_insert f l i x y H)
      end
  end.
Ltac open_inv H := destruct H; unfold total in *.
Ltac unwake :=
  rewrite ?sum_list_with_fmap_same by (by intros []).
Ltac fin :=
  simpl in *; repeat (case_match; simplify_eq); try congruence; try lia.

Lemma step_inv_mutex k ev s s' :
  Inv k s → step ev s = Some s' →
  total w_holds s' + sum_list_with j_holds (waiters s')
  = if queue_mutex_ s' then 1 else 0.
Proof.
  intros Hinv Hstep. destruct ev; step_cases Hstep; unwake; open_inv Hinv.
  all: try (ins w_holds; ins j_holds).
  all: rewrite ?sum_list_with_app.
  all: fin.
Qed.

Lemma step_length ev s s' :
  step ev s = Some s' → length (threads_ s') = length (threads_ s).
Proof.
  intros Hstep. destruct ev; step_cases Hstep.
  all: by rewrite ?length_fmap, ?length_insert.
Qed.

Lemma step_inv_len k ev s s' :
  Inv k s → step ev s = Some s' → length (threads_ s') = k.
Proof. intros Hinv Hstep. erewrite step_length by done. by destruct Hinv. Qed.

Lemma total_le_length f s :
  (∀ pc, f pc ≤ 1) → total f s ≤ length (threads_ s).
Proof. apply sum_list_with_le_length. Qed.

Lemma step_inv_active k ev s s' :
  Inv k s → step ev s = Some s' →
  (Z.of_nat k < SIZE_MOD)%Z →
  active_jobs_ s' = Z.of_nat (total w_active s').
Proof.
  intros Hinv Hstep Hk. pose proof (inv_active _ _ Hinv Hk) as Hact.
  unfold total in Hact.
  assert (Hlen: length (threads_ s') = k) by eauto using step_inv_len.
  assert (Hle : total w_active s' ≤ k).
  { rewrite <- Hlen. apply total_le_length. intros []; simpl; lia. }
  revert Hle. clear Hlen.
  destruct ev; step_cases Hstep; unwake; open_inv Hinv; intros Hle.
  all: try (ins w_active).
  all: try done.
  all: fin.
  all: rewrite Z.mod_small by lia; lia.
Qed.

Lemma step_inv_stop k ev s s' :
  Inv k s → step ev s = Some s' → stop_flag_ s' = true → total w_holds s' = 0.
Proof.
  intros Hinv Hstep.
  destruct ev; step_cases Hstep; unwake; open_inv Hinv; intros Hs.
  all: try by (unfold worker_pred in *; rewrite Hs in *).
  all: try specialize (inv_stop0 Hs).
  all: try (ins w_holds).
  all: fin.
Qed.

Lemma step_inv_fifo k ev s s' :
  Inv k s → step ev s = Some s' → submitted s' = dequeued s' ++ jobs_ s'.
Proof.
  intros Hinv Hstep. destruct ev; step_cases Hstep; open_inv Hinv.
  all: rewrite ?inv_fifo0; try done.
  all: try match goal with E : jobs_ _ = _ |- _ => rewrite ?E end.
  all: by rewrite <- ?(assoc_L (++)).
Qed.

Lemma step_inv_exec k ev s s' :
  Inv k s → step ev s = Some s' →
  ∀ j, occ j (dequeued s') = occ j (executed s') + total (w_holding j) s'.
Proof.
  intros Hinv Hstep j0. pose proof (inv_exec _ _ Hinv j0) as Hj0. unfold total in Hj0.
  destruct ev; step_cases Hstep; unwake.
  all: try (ins (w_holding j0)).
  all: rewrite ?occ_snoc.
  all: fin.
Qed.

Lemma step_inv_raise k ev s s' :
  Inv k s → step ev s = Some s' →
  ∀ e, occ e (raised s') = occ e (recorded s') + total (w_pending e) s'.
Proof.
  intros Hinv Hstep e0. pose proof (inv_raise _ _ Hinv e0) as He0. unfold total in He0.
  destruct ev; step_cases Hstep; unwake.
  all: try (ins (w_pending e0)).
  all: rewrite ?occ_snoc.
  all: fin.
Qed.

Lemma step_inv_last k ev s s' :
  Inv k s → step ev s = Some s' → last_exception_ s' = last (recorded s').
Proof.
  intros Hinv Hstep. destruct ev; step_cases Hstep; open_inv Hinv.
  all: rewrite ?last_snoc; try done.
Qed.


Lemma lookup_wake_exit (l : list worker_pc) i :
  (wake_worker <$> l) !! i = Some WExit ↔ l !! i = Some WExit.
Proof.
  rewrite list_lookup_fmap. destruct (l !! i) as [[]|]; simpl; naive_solver.
Qed.

Lemma blocked_wake (l : list worker_pc) :
  sum_list_with w_blocked (wake_worker <$> l) = 0.
Proof. induction l as [|[] l IH]; csimpl; lia. Qed.

Lemma step_stop_stays ev s s' :
  step ev s = Some s' → stop_flag_ s = true → stop_flag_ s' = true.
Proof. intros Hstep. destruct ev; step_cases Hstep; done. Qed.

Lemma step_exit_stays ev s s' i :
  step ev s = Some s' →
  threads_ s !! i = Some WExit → threads_ s' !! i = Some WExit.
Proof.
  intros Hstep Hi. destruct ev; step_cases Hstep; try done.
  all: rewrite ?lookup_wake_exit; try done.
  all: destruct (decide (i = i0)) as [->|]; [congruence|].
  all: by rewrite list_lookup_insert_ne.
Qed.

Lemma step_exit_back ev s s' i :
  step ev s = Some s' →
  threads_ s' !! i = Some WExit →
  threads_ s !! i = Some WExit ∨ stop_flag_ s = true.
Proof.
  intros Hstep. destruct ev; step_cases Hstep; rewrite ?lookup_wake_exit; auto.
  all: intros [(-> & ? & ?) | (? & ?)]%list_lookup_insert_Some; auto.
  all: discriminate.
Qed.

Lemma step_blocked_stays k ev s s' :
  Inv k s → step ev s = Some s' →
  stop_flag_ s = true → total w_blocked s = 0 → total w_blocked s' = 0.
Proof.
  intros Hinv Hstep Hs. pose proof (inv_stop _ _ Hinv Hs) as Hfree.
  destruct ev; step_cases Hstep; rewrite ?blocked_wake; try done.
  all: try by (unfold worker_pred in *; rewrite Hs in *).
  all: try match goal with
    | E : threads_ _ !! _ = Some WToBlock |- _ =>
        pose proof (sum_list_with_lookup w_holds _ _ _ E); simpl in *; lia
    end.
  all: ins w_blocked; fin.
Qed.

Lemma step_inv_exit k ev s s' :
  Inv k s → step ev s = Some s' →
  ∀ i, threads_ s' !! i = Some WExit → stop_flag_ s' = true.
Proof.
  intros Hinv Hstep i Hi. eapply step_stop_stays; [done|].
  destruct (step_exit_back _ _ _ _ Hstep Hi); eauto using inv_exit.
Qed.

Lemma step_inv_dtor k ev s s' :
  Inv k s → step ev s = Some s' → dtor_ok s'.
Proof.
  intros Hinv Hstep. pose proof (inv_dtor _ _ Hinv) as Hd.
  pose proof (step_stop_stays _ _ _ Hstep) as Hstop.
  pose proof (step_blocked_stays _ _ _ _ Hinv Hstep) as Hblk.
  pose proof (λ i, step_exit_stays _ _ _ i Hstep) as Hexit.
  assert (length (threads_ s') = length (threads_ s)) as Hlen.
  { erewrite step_inv_len by done. by destruct Hinv. }
  unfold dtor_ok in *.
  destruct ev.
  10: { clear Hstop Hblk Hexit. step_cases Hstep; simplify_eq/=.
    - done.
    - rewrite blocked_wake. split_and!; [done..|]. intros; lia.
    - destruct Hd as (? & ? & Hd). split_and!; [done..|].
      intros i Hi. destruct (decide (i = n)) as [->|]; [done|].
      apply Hd. lia.
    - destruct Hd as (? & ? & Hd). split_and!; [done..|].
      intros i pc Hi. apply lookup_ge_None in E0.
      pose proof (lookup_lt_Some _ _ _ Hi). rewrite Hd in Hi by lia. congruence. }
  all: replace (dtor s') with (dtor s) by (by step_cases Hstep).
  all: destruct (dtor s); [by step_cases Hstep|by auto|..].
  all: destruct Hd as (? & ? & Hd); split_and!; auto.
  all: intros ix pc Hi; pose proof (lookup_lt_Some _ _ _ Hi) as Hlt.
  all: rewrite Hlen in Hlt; apply lookup_lt_is_Some in Hlt as [pc0 Hpc0].
  all: pose proof (Hd _ _ Hpc0) as ->; apply Hexit in Hpc0; congruence.
Qed.

Lemma Inv_new k : Inv k (JobPool_new k).
Proof.
  split; unfold total; simpl; rewrite ?sum_list_with_replicate; simpl;
    try done; try lia.
  - apply length_replicate.
  - intros j. rewrite occ_nil, sum_list_with_replicate. simpl. lia.
  - intros e. rewrite occ_nil, sum_list_with_replicate. simpl. lia.
  - by intros i [? _]%lookup_replicate.
Qed.

Lemma Inv_step k ev s s' :
  Inv k s → step ev s = Some s' → Inv k s'.
Proof.
  intros Hinv Hstep. split.
  - eapply step_inv_len; eauto.
  - eapply step_inv_mutex; eauto.
  - eapply step_inv_active; eauto.
  - eapply step_inv_stop; eauto.
  - eapply step_inv_fifo; eauto.
  - eapply step_inv_exec; eauto.
  - eapply step_inv_raise; eauto.
  - eapply step_inv_last; eauto.
  - eapply step_inv_exit; eauto.
  - eapply step_inv_dtor; eauto.
Qed.

Lemma Inv_run k tr s s' :
  Inv k s → run tr s = Some s' → Inv k s'.
Proof.
  revert s. induction tr as [|ev tr IH]; intros s Hinv Hrun; simpl in *.
  - by simplify_eq.
  - destruct (step ev s) as [s1|] eqn:Hstep; [|done].
    eauto using Inv_step.
Qed.

Lemma reachable_Inv k s : reachable k s → Inv k s.
Proof. intros [tr Htr]. eauto using Inv_run, Inv_new. Qed.



(** ** Concurrency bound *)

(** C3.  In every state that a pool built with [k] workers can reach, at most
    [k] workers have a job dequeued and not yet given up (the [Running]
    state); and, [k] being a [size_t], [active_jobs_] lies between 0 and
    [k]. *)
Theorem running_jobs_bounded (k : nat) (s : JobPool) :
  reachable k s →
  total w_running s ≤ k ∧
  ((Z.of_nat k < SIZE_MOD)%Z → (0 ≤ active_jobs_ s ≤ Z.of_nat k)%Z).
Proof.
  intros Hinv%reachable_Inv. pose proof (inv_len _ _ Hinv) as Hlen. split.
  - rewrite <- Hlen. apply total_le_length. intros []; simpl; lia.
  - intros Hk. rewrite (inv_active _ _ Hinv Hk).
    pose proof (total_le_length w_active s) as Hle.
    rewrite Hlen in Hle. split; [lia|]. apply inj_le, Hle.
    intros []; simpl; lia.
Qed.

Lemma running_jobs_bounded_witness :
  let s := default (JobPool_new 2)
             (run (AddJob job_ok None ++ replicate 5 (EvWorker 1))
                (JobPool_new 2)) in
  threads_ s = [WLoop; WRun job_ok] ∧
  total w_running s ≤ 2 ∧
  ((Z.of_nat 2 < SIZE_MOD)%Z → (0 ≤ active_jobs_ s ≤ Z.of_nat 2)%Z).
Proof.
  intros s. split; [vm_compute; reflexivity|].
  apply (running_jobs_bounded 2 s).
  exists (AddJob job_ok None ++ replicate 5 (EvWorker 1)).
  vm_compute. reflexivity.
Defined.

(** ** FIFO *)

(** C8.  The jobs are popped in the order in which they were emplaced: the
    pop history followed by the queue is the submission history.  So when
    [A] was submitted before [B] and [B] has been popped, [A] was popped
    before it, at its own submission position. *)
Theorem dequeue_order_is_fifo (k : nat) (s : JobPool) :
  reachable k s →
  submitted s = dequeued s ++ jobs_ s ∧
  ∀ m n A B,
    m < n → submitted s !! m = Some A → submitted s !! n = Some B →
    n < length (dequeued s) →
    dequeued s !! m = Some A ∧ dequeued s !! n = Some B.
Proof.
  intros Hinv%reachable_Inv. pose proof (inv_fifo _ _ Hinv) as Hfifo.
  split; [done|]. intros m n A B Hmn HA HB Hn.
  rewrite Hfifo in HA, HB.
  rewrite lookup_app_l in HA by lia. rewrite lookup_app_l in HB by lia. done.
Qed.

Lemma dequeue_order_is_fifo_witness :
  let s := default (JobPool_new 2)
             (run (AddJobs [job_bad; job_ok] ++
                   [EvWorker 0; EvWorker 1; EvWorker 1; EvWorker 1; EvWorker 1;
                    EvWorker 0; EvWorker 0; EvWorker 0])
                (JobPool_new 2)) in
  threads_ s = [WInc job_ok; WInc job_bad] ∧
  submitted s = dequeued s ++ jobs_ s ∧
  ∀ m n A B,
    m < n → submitted s !! m = Some A → submitted s !! n = Some B →
    n < length (dequeued s) →
    dequeued s !! m = Some A ∧ dequeued s !! n = Some B.
Proof.
  intros s. split; [vm_compute; reflexivity|].
  apply (dequeue_order_is_fifo 2 s).
  exists (AddJobs [job_bad; job_ok] ++
          [EvWorker 0; EvWorker 1; EvWorker 1; EvWorker 1; EvWorker 1;
           EvWorker 0; EvWorker 0; EvWorker 0]).
  vm_compute. reflexivity.
Defined.

(** ** The resolver wrapper *)

(** C9, as stated, fails: the handler of line 19 catches
    [boost::system::system_error] only.  When the resolver call leaves by
    another exception, the task leaves by it too, the future stores it and
    [get()] rethrows it: the handle yields no string at all.  Nor is the
    first outcome tested for routability: the private address 10.255.255.1
    comes back as it is. *)
Lemma resolve_escape_counterexample :
  DnsResolver.resolve string id DnsResolver.out_of_memory_resolver "example.com"
  = DnsResolver.Thrown (DnsResolver.other_exception "std::bad_alloc") ∧
  (∀ str : string,
     DnsResolver.resolve string id DnsResolver.out_of_memory_resolver "example.com"
     ≠ DnsResolver.Value str) ∧
  DnsResolver.resolve string id DnsResolver.sample_resolver "10.255.255.1"
  = DnsResolver.Value "10.255.255.1".
Proof. split_and!; [reflexivity|intros str; discriminate|vm_compute; reflexivity]. Qed.

(** C9, amended.  Whatever the host name and whatever Boost's resolver does,
    what the future returned by [resolve] holds is decided by the outcome of
    the resolver call: the text of the first address of the result, whatever
    address that is; the literal "No results" when the result is empty;
    "Error: " followed by the message of the [boost::system::system_error]
    thrown; or, when the call threw anything else, that exception, which
    [get()] rethrows. *)
Theorem resolve_outcomes
    (address : Type) (to_string : address → string)
    (resolver_resolve : string → string → DnsResolver.outcome (list address))
    (hostname : string) :
  (∃ a rest,
      resolver_resolve hostname "" = DnsResolver.Value (a :: rest) ∧
      DnsResolver.resolve address to_string resolver_resolve hostname
      = DnsResolver.Value (to_string a)) ∨
  (resolver_resolve hostname "" = DnsResolver.Value [] ∧
   DnsResolver.resolve address to_string resolver_resolve hostname
   = DnsResolver.Value "No results") ∨
  (∃ what,
      resolver_resolve hostname "" = DnsResolver.Thrown (DnsResolver.system_error what) ∧
      DnsResolver.resolve address to_string resolver_resolve hostname
      = DnsResolver.Value ("Error: " +:+ what)) ∨
  (∃ what,
      resolver_resolve hostname "" = DnsResolver.Thrown (DnsResolver.other_exception what) ∧
      DnsResolver.resolve address to_string resolver_resolve hostname
      = DnsResolver.Thrown (DnsResolver.other_exception what)).
Proof.
  unfold DnsResolver.resolve, DnsResolver.resolve_task.
  destruct (resolver_resolve hostname "") as [[|a rest]|[what|what]] eqn:Hr.
  - right. left. done.
  - left. eauto.
  - right. right. left. eauto.
  - right. right. right. eauto.
Qed.

(** ** The recorded failure *)

Lemma run_app tr1 tr2 s :
  run (tr1 ++ tr2) s = run tr1 s ≫= run tr2.
Proof.
  revert s. induction tr1 as [|ev tr1 IH]; intros s; simpl; [done|].
  destruct (step ev s); simpl; [apply IH|done].
Qed.

Lemma run_reachable k tr s s' :
  reachable k s → run tr s = Some s' → reachable k s'.
Proof.
  intros [tr0 H0] Hrun. exists (tr0 ++ tr). rewrite run_app, H0. done.
Qed.

Lemma step_recorded ev s s' :
  step ev s = Some s' → ∃ more, recorded s' = recorded s ++ more.
Proof.
  intros Hstep. destruct ev; step_cases Hstep; eauto using app_nil_r.
  all: by exists [].
Qed.

Lemma run_recorded tr s s' :
  run tr s = Some s' → ∃ more, recorded s' = recorded s ++ more.
Proof.
  revert s. induction tr as [|ev tr IH]; intros s Hrun; simpl in *.
  - simplify_eq. exists []. by rewrite app_nil_r.
  - destruct (step ev s) as [s1|] eqn:Hstep; [|done].
    destruct (step_recorded _ _ _ Hstep) as [m1 H1].
    destruct (IH _ Hrun) as [m2 H2]. exists (m1 ++ m2).
    by rewrite H2, H1, (assoc_L (++)).
Qed.

Lemma last_is_Some {A} (l : list A) : l ≠ [] → is_Some (last l).
Proof.
  destruct l as [|x l _] using rev_ind; [done|]. rewrite last_snoc. eauto.
Qed.

Lemma waiter_check_step s n :
  waiters s !! n = Some JCheckErr →
  ∃ s', step (EvWaiter n) s = Some s' ∧
    waiters s' !! n
    = Some match last_exception_ s with
           | Some e => JRaised e
           | None => JReturned
           end.
Proof.
  intros Hn. simpl. unfold waiter_step. rewrite Hn. eexists. split; [done|].
  simpl. apply list_lookup_insert_eq. by eapply lookup_lt_Some.
Qed.

Lemma step_returned_back ev s s' m :
  is_Some (last_exception_ s) → step ev s = Some s' →
  waiters s' !! m = Some JReturned → waiters s !! m = Some JReturned.
Proof.
  intros [e He] Hstep. destruct ev; step_cases Hstep; try done.
  all: rewrite ?list_lookup_fmap.
  all: try by destruct (waiters s !! m) as [[]|].
  all: try by intros [(-> & ? & ?) | (? & ?)]%list_lookup_insert_Some.
  intros [?|[? Hn]]%lookup_app_Some; [done|].
  by destruct (m - length (waiters s)) as [|[]].
Qed.

Lemma step_last_exception_stays ev s s' :
  is_Some (last_exception_ s) → step ev s = Some s' →
  is_Some (last_exception_ s').
Proof. intros [e He] Hstep. destruct ev; step_cases Hstep; eauto; done. Qed.

Lemma run_returned_back tr s s' n :
  is_Some (last_exception_ s) → run tr s = Some s' →
  waiters s' !! n = Some JReturned → waiters s !! n = Some JReturned.
Proof.
  revert s. induction tr as [|ev tr IH]; intros s He Hrun; simpl in *.
  - by simplify_eq.
  - destruct (step ev s) as [s1|] eqn:Hstep; [|done]. intros Hn.
    eapply step_returned_back; [done..|].
    eapply IH; eauto using step_last_exception_stays.
Qed.

Lemma sum_list_with_le {A} (f g : A → nat) l :
  (∀ x, f x ≤ g x) → sum_list_with f l ≤ sum_list_with g l.
Proof.
  intros Hfg. induction l as [|a l IH]; simpl; [lia|].
  specialize (Hfg a). lia.
Qed.

Lemma drained_is_empty s :
  drained s = true → jobs_ s = [] ∧ active_jobs_ s = 0%Z.
Proof.
  unfold drained. intros [He Ha%Z.eqb_eq]%andb_true_iff.
  split; [|done]. by destruct (jobs_ s).
Qed.

Lemma drained_all_recorded k s :
  Inv k s → (Z.of_nat k < SIZE_MOD)%Z → drained s = true →
  ∀ e, occ e (raised s) = occ e (recorded s).
Proof.
  intros Hinv Hk [_ Ha]%drained_is_empty e.
  rewrite (inv_active _ _ Hinv Hk) in Ha.
  pose proof (sum_list_with_le (w_pending e) w_active (threads_ s)) as Hle.
  rewrite (inv_raise _ _ Hinv e). unfold total in *.
  cut (sum_list_with (w_pending e) (threads_ s) = 0); [lia|].
  cut (sum_list_with (w_pending e) (threads_ s) ≤ 0); [lia|].
  etrans; [apply Hle|lia].
  intros []; simpl; try case_decide; lia.
Qed.

Lemma occ_nonempty {A} `{EqDecision A} (l1 l2 : list A) :
  (∀ x, occ x l1 = occ x l2) → l1 ≠ [] → l2 ≠ [].
Proof.
  intros Hocc Hl1 ->. destruct l1 as [|x l1]; [done|].
  specialize (Hocc x). rewrite occ_cons, occ_nil in Hocc.
  by rewrite decide_True in Hocc.
Qed.

(** C6.  A caller of [WaitForAllJobs] whose wait ends on the drained
    predicate goes on to line 31 and there rethrows the most recently
    recorded failure, or returns normally when none is recorded.  Every
    failure a job had raised when the wait ended has been recorded by then,
    so in that case the call does raise.  The failure goes to this caller,
    whoever submitted the job. *)
Theorem wait_rethrows_last_failure
    (k n : nat) (s s1 s2 : JobPool) (tr : list event) :
  (Z.of_nat k < SIZE_MOD)%Z →
  reachable k s →
  waiters s !! n = Some JWait →
  step (EvWaiter n) s = Some s1 →
  waiters s1 !! n = Some JCheckErr →
  run tr s1 = Some s2 →
  waiters s2 !! n = Some JCheckErr →
  ∃ s3, step (EvWaiter n) s2 = Some s3 ∧
    waiters s3 !! n
    = Some match last (recorded s2) with
           | Some e => JRaised e
           | None => JReturned
           end ∧
    (raised s ≠ [] → ∃ e, last (recorded s2) = Some e).
Proof.
  intros Hk Hreach Hn Hstep Hn1 Hrun Hn2.
  pose proof (reachable_Inv _ _ Hreach) as Hinv.
  assert (reachable k s2) as Hreach2.
  { eapply run_reachable; [|done]. eapply (run_reachable _ [EvWaiter n]); [done|].
    simpl. simpl in Hstep. by rewrite Hstep. }
  pose proof (reachable_Inv _ _ Hreach2) as Hinv2.
  destruct (waiter_check_step _ _ Hn2) as (s3 & Hstep3 & Hw3).
  exists s3. split; [done|]. split; [by rewrite Hw3, (inv_last _ _ Hinv2)|].
  intros Hraised. apply last_is_Some.
  assert (drained s = true ∧ recorded s1 = recorded s) as [Hdr Hrec1].
  { simpl in Hstep. unfold waiter_step in Hstep. rewrite Hn in Hstep.
    destruct (queue_mutex_ s); [done|]. destruct (drained s); [by simplify_eq|].
    simplify_eq. simpl in Hn1.
    rewrite list_lookup_insert_eq in Hn1 by (by eapply lookup_lt_Some). done. }
  destruct (run_recorded _ _ _ Hrun) as [more Hmore].
  rewrite Hmore, Hrec1.
  assert (recorded s ≠ []) as Hne.
  { eapply occ_nonempty; [|done]. by eapply drained_all_recorded. }
  by destruct (recorded s).
Qed.

Lemma wait_rethrows_last_failure_witness :
  let s := default (JobPool_new 1)
             (run failed_then_wait_schedule (JobPool_new 1)) in
  let s1 := default s (step (EvWaiter 0) s) in
  let s2 := default s1 (run [EvWorker 0; EvPause] s1) in
  raised s = ["Test exception"] ∧
  ∃ s3, step (EvWaiter 0) s2 = Some s3 ∧
    waiters s3 !! 0
    = Some match last (recorded s2) with
           | Some e => JRaised e
           | None => JReturned
           end ∧
    (raised s ≠ [] → ∃ e, last (recorded s2) = Some e).
Proof.
  intros s s1 s2. split; [vm_compute; reflexivity|].
  apply (wait_rethrows_last_failure 1 0 s s1 s2 [EvWorker 0; EvPause]).
  - vm_compute. reflexivity.
  - exists failed_then_wait_schedule. vm_compute. reflexivity.
  - vm_compute. reflexivity.
  - vm_compute. reflexivity.
  - vm_compute. reflexivity.
  - vm_compute. reflexivity.
  - vm_compute. reflexivity.
Defined.

Lemma drained_failure_recorded k s :
  Inv k s → (Z.of_nat k < SIZE_MOD)%Z → drained s = true →
  raised s ≠ [] → is_Some (last_exception_ s).
Proof.
  intros Hinv Hk Hdr Hr. rewrite (inv_last _ _ Hinv). apply last_is_Some.
  eapply occ_nonempty; [|done]. by eapply drained_all_recorded.
Qed.

Lemma step_later_callers k N ev s s' :
  (Z.of_nat k < SIZE_MOD)%Z → Inv k s → raised s ≠ [] →
  (∀ n, N ≤ n → will_raise s n) →
  step ev s = Some s' →
  raised s' ≠ [] ∧ ∀ n, N ≤ n → will_raise s' n.
Proof.
  intros Hk Hinv Hr Hall Hstep.
  pose proof (drained_failure_recorded _ _ Hinv Hk) as Hdr.
  unfold will_raise in *.
  destruct ev; step_cases Hstep.
  all: try (split; [by (done || destruct (raised s))|]).
  all: try done.
  all: intros m Hm; specialize (Hall m Hm) as [Hret Hchk].
  all: rewrite ?list_lookup_fmap.
  all: split; intros Hx.
  all: try (apply list_lookup_insert_Some in Hx as [(-> & ? & ?)|(? & ?)];
            simplify_eq; eauto; try done; by destruct Hchk).
  all: try (destruct (waiters s !! m) as [[]|]; simplify_eq/=; eauto; done).
  all: try (apply lookup_app_Some in Hx as [?|[? Hx]]; [eauto; done|];
            by destruct (m - length (waiters s)) as [|[]]).
  all: eauto.
Qed.

Lemma run_later_callers k N tr s s' :
  (Z.of_nat k < SIZE_MOD)%Z → Inv k s → raised s ≠ [] →
  (∀ n, N ≤ n → will_raise s n) →
  run tr s = Some s' →
  ∀ n, N ≤ n → will_raise s' n.
Proof.
  intros Hk. revert s.
  induction tr as [|ev tr IH]; intros s Hinv Hr Hall Hrun; simpl in *.
  - by simplify_eq.
  - destruct (step ev s) as [s1|] eqn:Hstep; [|done].
    destruct (step_later_callers _ _ _ _ _ Hk Hinv Hr Hall Hstep).
    eauto using Inv_step.
Qed.

(** C10.  [last_exception_] is never reset.  Once a failure has been
    recorded, in every later state the member still holds the most recently
    recorded failure, every caller that reaches line 31 rethrows exactly
    that failure, and no caller returns normally any more, whatever jobs
    ran in between.  And a call entered after a job has thrown, be it
    before line 68 has run, never returns normally. *)
Theorem failure_is_never_cleared (k : nat) (s s' : JobPool) (tr : list event) :
  reachable k s → run tr s = Some s' →
  (recorded s ≠ [] →
     (∃ e, last (recorded s') = Some e ∧ last_exception_ s' = Some e ∧
        ∀ n, waiters s' !! n = Some JCheckErr →
          ∃ s'', step (EvWaiter n) s' = Some s'' ∧
                 waiters s'' !! n = Some (JRaised e)) ∧
     (∀ n, waiters s' !! n = Some JReturned →
           waiters s !! n = Some JReturned)) ∧
  ((Z.of_nat k < SIZE_MOD)%Z → raised s ≠ [] →
     ∀ n, length (waiters s) ≤ n → waiters s' !! n ≠ Some JReturned).
Proof.
  intros Hreach Hrun.
  pose proof (reachable_Inv _ _ Hreach) as Hinv.
  pose proof (reachable_Inv _ _ (run_reachable _ _ _ _ Hreach Hrun)) as Hinv'.
  split.
  - intros Hrec.
    assert (is_Some (last_exception_ s)) as Hsome.
    { rewrite (inv_last _ _ Hinv). by apply last_is_Some. }
    split; [|intros n; by eapply run_returned_back].
    destruct (run_recorded _ _ _ Hrun) as [more Hmore].
    destruct (last_is_Some (recorded s')) as [e He].
    { rewrite Hmore. by destruct (recorded s). }
    exists e. split; [done|]. split; [by rewrite (inv_last _ _ Hinv')|].
    intros n Hn. destruct (waiter_check_step _ _ Hn) as (s'' & Hstep & Hw).
    exists s''. split; [done|]. by rewrite Hw, (inv_last _ _ Hinv'), He.
  - intros Hk Hraised n Hn.
    eapply (run_later_callers k (length (waiters s)) tr s s'); try done.
    intros m Hm. apply lookup_ge_None in Hm. unfold will_raise.
    rewrite Hm. done.
Qed.

Lemma failure_is_never_cleared_witness :
  let s := default (JobPool_new 1) (run first_cycle_schedule (JobPool_new 1)) in
  let s' := default s (run second_cycle_schedule s) in
  (waiters s = [JRaised "Test exception"] ∧
   waiters s' = [JRaised "Test exception"; JCheckErr] ∧
   executed s' = [job_bad; job_ok]) ∧
  (recorded s ≠ [] →
     (∃ e, last (recorded s') = Some e ∧ last_exception_ s' = Some e ∧
        ∀ n, waiters s' !! n = Some JCheckErr →
          ∃ s'', step (EvWaiter n) s' = Some s'' ∧
                 waiters s'' !! n = Some (JRaised e)) ∧
     (∀ n, waiters s' !! n = Some JReturned →
           waiters s !! n = Some JReturned)) ∧
  ((Z.of_nat 1 < SIZE_MOD)%Z → raised s ≠ [] →
     ∀ n, length (waiters s) ≤ n → waiters s' !! n ≠ Some JReturned).
Proof.
  intros s s'. split; [vm_compute; done|].
  apply (failure_is_never_cleared 1 s s' second_cycle_schedule).
  - exists first_cycle_schedule. vm_compute. reflexivity.
  - vm_compute. reflexivity.
Defined.

(** ** Teardown *)

Lemma step_stopped ev s s' k :
  Inv k s → stop_flag_ s = true → step ev s = Some s' →
  dequeued s' = dequeued s ∧ ∃ more, jobs_ s' = jobs_ s ++ more.
Proof.
  intros Hinv Hstop Hstep. pose proof (inv_stop _ _ Hinv Hstop) as Hnone.
  unfold total in Hnone.
  destruct ev; step_cases Hstep; eauto using app_nil_r.
  all: try (split; [done|]; exists []; by rewrite app_nil_r).
  all: pose proof (sum_list_with_lookup w_holds _ _ _ E) as Hle; simpl in Hle; lia.
Qed.

Lemma run_stopped tr s s' k :
  Inv k s → stop_flag_ s = true → run tr s = Some s' →
  dequeued s' = dequeued s ∧ ∃ more, jobs_ s' = jobs_ s ++ more.
Proof.
  revert s. induction tr as [|ev tr IH]; intros s Hinv Hstop Hrun; simpl in *.
  - simplify_eq. split; [done|]. exists []. by rewrite app_nil_r.
  - destruct (step ev s) as [s1|] eqn:Hstep; [|done].
    destruct (step_stopped _ _ _ _ Hinv Hstop Hstep) as (Hd1 & m1 & Hj1).
    destruct (IH s1) as (Hd2 & m2 & Hj2);
      eauto using Inv_step, step_stop_stays.
    split; [congruence|]. exists (m1 ++ m2). by rewrite Hj2, Hj1, (assoc_L (++)).
Qed.

(** C7.  The destructor first sets [stop_flag_] (under the mutex), then
    wakes every thread blocked on [condition_], then joins the workers one
    by one: it cannot pass a worker that has not returned, and when it has
    returned every worker has.  From the moment [stop_flag_] is set no job
    leaves the queue: the pop history is frozen, the jobs queued then stay
    queued, and the only jobs still entered are those a worker had already
    popped. *)
Theorem teardown_abandons_queue (k : nat) (s : JobPool) :
  reachable k s →
  (dtor s = DAlive → queue_mutex_ s = false →
     ∃ s', step EvDestroy s = Some s' ∧ stop_flag_ s' = true ∧
           dtor s' = DNotify) ∧
  (dtor s = DNotify →
     ∃ s', step EvDestroy s = Some s' ∧ dtor s' = DJoin 0 ∧
           ∀ i, threads_ s' !! i ≠ Some WBlocked) ∧
  (∀ n pc, dtor s = DJoin n → threads_ s !! n = Some pc → pc ≠ WExit →
     step EvDestroy s = None) ∧
  (dtor s = DDone → ∀ i pc, threads_ s !! i = Some pc → pc = WExit) ∧
  (stop_flag_ s = true → ∀ tr s', run tr s = Some s' →
     dequeued s' = dequeued s ∧
     (∃ more, jobs_ s' = jobs_ s ++ more) ∧
     ∀ j, occ j (executed s') + total (w_holding j) s'
          = occ j (executed s) + total (w_holding j) s).
Proof.
  intros Hreach. pose proof (reachable_Inv _ _ Hreach) as Hinv.
  split_and!.
  - intros Hd Hm. simpl. unfold dtor_step. rewrite Hd, Hm. eauto.
  - intros Hd. simpl. unfold dtor_step. rewrite Hd. eexists.
    split_and!; [done..|]. simpl. intros i Hi.
    pose proof (sum_list_with_lookup w_blocked _ _ _ Hi) as Hle.
    rewrite blocked_wake in Hle. simpl in Hle. lia.
  - intros n pc Hd Hn Hpc. simpl. unfold dtor_step. rewrite Hd, Hn.
    by destruct pc.
  - intros Hd. pose proof (inv_dtor _ _ Hinv) as Hok. unfold dtor_ok in Hok.
    rewrite Hd in Hok. by destruct Hok as (_ & _ & ?).
  - intros Hstop tr s' Hrun.
    destruct (run_stopped _ _ _ _ Hinv Hstop Hrun) as (Hd & Hj).
    split_and!; [done..|]. intros j.
    pose proof (reachable_Inv _ _ (run_reachable _ _ _ _ Hreach Hrun)) as Hinv'.
    rewrite <- (inv_exec _ _ Hinv j), <- (inv_exec _ _ Hinv' j). by rewrite Hd.
Qed.

Lemma teardown_abandons_queue_witness :
  let s := default (JobPool_new 1) (run teardown_schedule (JobPool_new 1)) in
  (∃ s', run teardown_rest_schedule s = Some s' ∧ dtor s' = DDone ∧
         threads_ s' = [WExit] ∧ jobs_ s' = [job_ok; job_bad] ∧
         executed s' = []) ∧
  (dtor s = DAlive → queue_mutex_ s = false →
     ∃ s', step EvDestroy s = Some s' ∧ stop_flag_ s' = true ∧
           dtor s' = DNotify) ∧
  (dtor s = DNotify →
     ∃ s', step EvDestroy s = Some s' ∧ dtor s' = DJoin 0 ∧
           ∀ i, threads_ s' !! i ≠ Some WBlocked) ∧
  (∀ n pc, dtor s = DJoin n → threads_ s !! n = Some pc → pc ≠ WExit →
     step EvDestroy s = None) ∧
  (dtor s = DDone → ∀ i pc, threads_ s !! i = Some pc → pc = WExit) ∧
  (stop_flag_ s = true → ∀ tr s', run tr s = Some s' →
     dequeued s' = dequeued s ∧
     (∃ more, jobs_ s' = jobs_ s ++ more) ∧
     ∀ j, occ j (executed s') + total (w_holding j) s'
          = occ j (executed s) + total (w_holding j) s).
Proof.
  intros s. split.
  - exists (default s (run teardown_rest_schedule s)).
    vm_compute. split_and!; reflexivity.
  - apply (teardown_abandons_queue 1 s).
    exists teardown_schedule. vm_compute. reflexivity.
Defined.

(** ** A worker running alone *)

Ltac solo_step Hlen :=
  cbn [run step]; unfold worker_step at 1; simpl;
  rewrite ?list_lookup_fmap, ?list_insert_insert_eq;
  rewrite ?list_lookup_insert_eq by (rewrite ?length_fmap, ?length_insert; exact Hlen);
  simpl.

Lemma solo_cycle i j q s :
  threads_ s !! i = Some WLoop →
  stop_flag_ s = false → paused_ s = false → queue_mutex_ s = false →
  jobs_ s = j :: q →
  ∃ s', run (worker_cycle i j) s = Some s' ∧
    threads_ s' !! i = Some WLoop ∧
    stop_flag_ s' = false ∧ paused_ s' = false ∧ queue_mutex_ s' = false ∧
    jobs_ s' = q ∧
    dequeued s' = dequeued s ++ [j] ∧
    executed s' = executed s ++ [j] ∧
    recorded s' = recorded s ++ failures [j].
Proof.
  intros Hi Hstop Hpaused Hmutex Hjobs.
  pose proof (lookup_lt_Some _ _ _ Hi) as Hlen.
  unfold worker_cycle, failures. simpl omap.
  destruct (job_call j) as [|e] eqn:Hcall; simpl replicate.
  - cbn [run step]; unfold worker_step at 1. rewrite Hi, Hstop.
    solo_step Hlen. unfold worker_pred. simpl. rewrite Hmutex, Hstop, Hjobs. simpl.
    solo_step Hlen. rewrite Hpaused.
    solo_step Hlen. rewrite Hjobs.
    solo_step Hlen. 
    solo_step Hlen. rewrite Hcall.
    solo_step Hlen.
    solo_step Hlen.
    eexists. split; [done|]. simpl.
    rewrite list_lookup_fmap, list_lookup_insert_eq by (rewrite ?length_insert; done).
    rewrite app_nil_r. done.
  - cbn [run step]; unfold worker_step at 1. rewrite Hi, Hstop.
    solo_step Hlen. unfold worker_pred. simpl. rewrite Hmutex, Hstop, Hjobs. simpl.
    solo_step Hlen. rewrite Hpaused.
    solo_step Hlen. rewrite Hjobs.
    solo_step Hlen. 
    solo_step Hlen. rewrite Hcall.
    solo_step Hlen.
    solo_step Hlen.
    solo_step Hlen.
    eexists. split; [done|]. simpl.
    rewrite list_lookup_fmap, list_lookup_insert_eq by (rewrite ?length_insert; done).
    done.
Qed.

Lemma failures_cons j js : failures (j :: js) = failures [j] ++ failures js.
Proof. unfold failures. simpl. by destruct (job_call j). Qed.

Lemma solo_drain i js : ∀ s q,
  threads_ s !! i = Some WLoop →
  stop_flag_ s = false → paused_ s = false → queue_mutex_ s = false →
  jobs_ s = js ++ q →
  ∃ s', run (solo_schedule i js) s = Some s' ∧
    threads_ s' !! i = Some WLoop ∧
    stop_flag_ s' = false ∧ paused_ s' = false ∧ queue_mutex_ s' = false ∧
    jobs_ s' = q ∧
    dequeued s' = dequeued s ++ js ∧
    executed s' = executed s ++ js ∧
    recorded s' = recorded s ++ failures js.
Proof.
  induction js as [|j js IH]; intros s q Hi Hstop Hpaused Hmutex Hjobs.
  - exists s. simpl in *. by rewrite !app_nil_r.
  - destruct (solo_cycle i j (js ++ q) s) as (s1 & Hrun1 & Hi1 & ? & ? & ? & Hj1 & Hd1 & He1 & Hr1);
      [done..|].
    destruct (IH s1 q) as (s2 & Hrun2 & Hi2 & ? & ? & ? & Hj2 & Hd2 & He2 & Hr2);
      [done..|].
    exists s2.
    change (solo_schedule i (j :: js))
      with (worker_cycle i j ++ solo_schedule i js).
    rewrite run_app, Hrun1. split_and!; try done.
    + by rewrite Hd2, Hd1, <- (assoc_L (++)).
    + by rewrite He2, He1, <- (assoc_L (++)).
    + by rewrite Hr2, Hr1, (failures_cons j js), (assoc_L (++)).
Qed.

Lemma after_throw i j e s :
  threads_ s !! i = Some (WRun j) → job_call j = Throws e →
  ∃ s', run (replicate 4 (EvWorker i)) s = Some s' ∧
    threads_ s' !! i = Some WLoop ∧
    last_exception_ s' = Some e ∧
    recorded s' = recorded s ++ [e] ∧
    executed s' = executed s ++ [j] ∧
    jobs_ s' = jobs_ s ∧ stop_flag_ s' = stop_flag_ s.
Proof.
  intros Hi Hcall. pose proof (lookup_lt_Some _ _ _ Hi) as Hlen.
  simpl replicate.
  cbn [run step]; unfold worker_step at 1. rewrite Hi, Hcall.
  solo_step Hlen. solo_step Hlen. solo_step Hlen.
  eexists. split; [done|]. simpl.
  rewrite list_lookup_fmap, list_lookup_insert_eq by (rewrite ?length_insert; done).
  done.
Qed.

(** C5.  A throwing job does not end its worker: a worker returns only after
    it has seen [stop_flag_]; the worker whose job threw records the
    exception in [last_exception_], decrements, notifies and is back at the
    head of its loop, the queue untouched.  No schedule loses a job: each
    submitted job is in the queue, in a worker's hands or entered.  A worker
    left alone with the queue enters every job of it in order, whichever of
    them throw, and records their exceptions. *)
Theorem failing_job_is_isolated (k : nat) (s : JobPool) :
  reachable k s →
  (∀ i, threads_ s !! i = Some WExit → stop_flag_ s = true) ∧
  (∀ i j e, threads_ s !! i = Some (WRun j) → job_call j = Throws e →
     ∃ s', run (replicate 4 (EvWorker i)) s = Some s' ∧
       threads_ s' !! i = Some WLoop ∧
       last_exception_ s' = Some e ∧
       recorded s' = recorded s ++ [e] ∧
       executed s' = executed s ++ [j] ∧
       jobs_ s' = jobs_ s ∧ stop_flag_ s' = stop_flag_ s) ∧
  (∀ j, occ j (submitted s)
        = occ j (executed s) + total (w_holding j) s + occ j (jobs_ s)) ∧
  (∀ i js q,
     threads_ s !! i = Some WLoop →
     stop_flag_ s = false → paused_ s = false → queue_mutex_ s = false →
     jobs_ s = js ++ q →
     ∃ s', run (solo_schedule i js) s = Some s' ∧
       threads_ s' !! i = Some WLoop ∧
       jobs_ s' = q ∧
       executed s' = executed s ++ js ∧
       recorded s' = recorded s ++ failures js).
Proof.
  intros Hinv%reachable_Inv. split_and!.
  - apply (inv_exit _ _ Hinv).
  - intros i j e. apply after_throw.
  - intros j. rewrite (inv_fifo _ _ Hinv), occ_app, (inv_exec _ _ Hinv j). done.
  - intros i js q Hi Hstop Hpaused Hmutex Hjobs.
    destruct (solo_drain i js s q) as (s' & ? & ? & ? & ? & ? & ? & ? & ? & ?);
      [done..|].
    exists s'. done.
Qed.

Lemma failing_job_is_isolated_witness :
  let s := default (JobPool_new 2) (run isolation_schedule (JobPool_new 2)) in
  (∃ s', run (solo_schedule 1 [job_bad; job_ok; job_bad]) s = Some s' ∧
         executed s' = [job_bad; job_ok; job_bad] ∧
         threads_ s' = [WLoop; WLoop] ∧
         recorded s' = ["Test exception"; "Test exception"]) ∧
  (∀ i, threads_ s !! i = Some WExit → stop_flag_ s = true) ∧
  (∀ i j e, threads_ s !! i = Some (WRun j) → job_call j = Throws e →
     ∃ s', run (replicate 4 (EvWorker i)) s = Some s' ∧
       threads_ s' !! i = Some WLoop ∧
       last_exception_ s' = Some e ∧
       recorded s' = recorded s ++ [e] ∧
       executed s' = executed s ++ [j] ∧
       jobs_ s' = jobs_ s ∧ stop_flag_ s' = stop_flag_ s) ∧
  (∀ j, occ j (submitted s)
        = occ j (executed s) + total (w_holding j) s + occ j (jobs_ s)) ∧
  (∀ i js q,
     threads_ s !! i = Some WLoop →
     stop_flag_ s = false → paused_ s = false → queue_mutex_ s = false →
     jobs_ s = js ++ q →
     ∃ s', run (solo_schedule i js) s = Some s' ∧
       threads_ s' !! i = Some WLoop ∧
       jobs_ s' = q ∧
       executed s' = executed s ++ js ∧
       recorded s' = recorded s ++ failures js).
Proof.
  intros s. split.
  - exists (default s (run (solo_schedule 1 [job_bad; job_ok; job_bad]) s)).
    vm_compute. split_and!; reflexivity.
  - apply (failing_job_is_isolated 2 s).
    exists isolation_schedule. vm_compute. reflexivity.
Defined.

(** ** Pause and resume *)

Lemma step_paused ev s s' :
  paused_ s = true → ev ≠ EvResume → step ev s = Some s' →
  paused_ s' = true ∧
  (∃ more, dequeued s' = dequeued s ++ more ∧
           length more + total w_past_gate s' ≤ total w_past_gate s) ∧
  length (executed s') + total w_unstarted s'
  ≤ length (executed s) + total w_unstarted s.
Proof.
  intros Hp Hev Hstep. destruct ev; step_cases Hstep; unwake; try done.
  all: split; [done|].
  all: try (ins w_past_gate; ins w_unstarted; simpl in *).
  all: rewrite ?length_app; simpl.
  all: split; [eexists; split; [symmetry; apply app_nil_r || reflexivity|]|].
  all: simpl; lia.
Qed.

Lemma run_paused tr s s' :
  paused_ s = true → no_resume tr → run tr s = Some s' →
  paused_ s' = true ∧
  (∃ more, dequeued s' = dequeued s ++ more ∧
           length more + total w_past_gate s' ≤ total w_past_gate s) ∧
  length (executed s') + total w_unstarted s'
  ≤ length (executed s) + total w_unstarted s.
Proof.
  unfold no_resume. revert s.
  induction tr as [|ev tr IH]; intros s Hp Htr Hrun; simpl in *.
  - simplify_eq. split_and!; [done| |lia]. exists []. rewrite app_nil_r.
    simpl. split; [done|lia].
  - destruct (step ev s) as [s1|] eqn:Hstep; [|done].
    apply not_elem_of_cons in Htr as [Hev Htr].
    destruct (step_paused _ _ _ Hp (not_eq_sym Hev) Hstep)
      as (Hp1 & (m1 & Hd1 & Hg1) & He1).
    destruct (IH _ Hp1 Htr Hrun) as (Hp2 & (m2 & Hd2 & Hg2) & He2).
    split_and!; [done| |lia]. exists (m1 ++ m2).
    rewrite Hd2, Hd1, (assoc_L (++)), length_app. split; [done|lia].
Qed.

Lemma past_gate_holds s : total w_past_gate s ≤ total w_holds s.
Proof. apply sum_list_with_le. intros []; simpl; lia. Qed.

Lemma resume_pops i pc j q s :
  threads_ s !! i = Some pc → steps_to_pop pc ≠ 0 →
  stop_flag_ s = false → queue_mutex_ s = false → jobs_ s = j :: q →
  ∃ s', run (Resume ++ replicate (steps_to_pop pc) (EvWorker i)) s = Some s' ∧
    threads_ s' !! i = Some (WInc j) ∧ jobs_ s' = q ∧
    dequeued s' = dequeued s ++ [j].
Proof.
  intros Hi Hpc Hstop Hmutex Hjobs.
  pose proof (lookup_lt_Some _ _ _ Hi) as Hlen.
  destruct pc; try done; simpl.
  - unfold worker_step at 1. simpl. rewrite list_lookup_fmap, Hi, Hstop. simpl.
    solo_step Hlen. unfold worker_pred. simpl. rewrite Hmutex, Hstop, Hjobs. simpl.
    solo_step Hlen. solo_step Hlen. rewrite Hjobs.
    eexists. split; [done|]. simpl.
    rewrite list_lookup_insert_eq by (rewrite ?length_insert, ?length_fmap; done). done.
  - unfold worker_step at 1. simpl. rewrite list_lookup_fmap, Hi. simpl.
    unfold worker_pred. simpl. rewrite Hmutex, Hstop, Hjobs. simpl.
    solo_step Hlen. solo_step Hlen. rewrite Hjobs.
    eexists. split; [done|]. simpl.
    rewrite list_lookup_insert_eq by (rewrite ?length_insert, ?length_fmap; done). done.
  - unfold worker_step at 1. simpl. rewrite list_lookup_fmap, Hi. simpl.
    unfold worker_pred. simpl. rewrite Hmutex, Hstop, Hjobs. simpl.
    solo_step Hlen. solo_step Hlen. rewrite Hjobs.
    eexists. split; [done|]. simpl.
    rewrite list_lookup_insert_eq by (rewrite ?length_insert, ?length_fmap; done). done.
Qed.

(** C4, as stated, fails: the single worker reads [paused_] as clear at line
    59, [Pause()] sets the flag, and the worker, the flag set all the while,
    pops the job and enters it. *)
Lemma pause_race_counterexample :
  let s := default (JobPool_new 1) (run pause_race_schedule (JobPool_new 1)) in
  reachable 1 s ∧ paused_ s = true ∧ dequeued s = [] ∧ executed s = [] ∧
  (∃ s1 s2,
    step (EvWorker 0) s = Some s1 ∧ paused_ s1 = true ∧
    dequeued s1 = [job_ok] ∧
    run [EvWorker 0; EvWorker 0] s1 = Some s2 ∧ paused_ s2 = true ∧
    executed s2 = [job_ok]) ∧
  ¬ (∀ i s', paused_ s = true → step (EvWorker i) s = Some s' →
       dequeued s' = dequeued s).
Proof.
  intros s. split; [exists pause_race_schedule; vm_compute; reflexivity|].
  split_and!; [vm_compute; reflexivity..| |].
  - exists (default s (step (EvWorker 0) s)).
    exists (default s (run (replicate 3 (EvWorker 0)) s)).
    vm_compute. split_and!; reflexivity.
  - intros Hclaim.
    specialize (Hclaim 0 (default s (step (EvWorker 0) s))).
    vm_compute in Hclaim. by specialize (Hclaim eq_refl eq_refl).
Qed.

Lemma job_in_hand_completes i pc s :
  threads_ s !! i = Some pc → w_running pc = 1 →
  ∃ s', run (replicate (steps_to_loop pc) (EvWorker i)) s = Some s' ∧
    threads_ s' !! i = Some WLoop ∧
    paused_ s' = paused_ s ∧ jobs_ s' = jobs_ s ∧
    dequeued s' = dequeued s ∧ executed s' = executed s ++ held_jobs pc.
Proof.
  intros Hi Hr. pose proof (lookup_lt_Some _ _ _ Hi) as Hlen.
  destruct pc; try done; simpl steps_to_loop; simpl held_jobs;
    try destruct (job_call j) as [|e] eqn:Hcall; simpl replicate;
    cbn [run step]; unfold worker_step at 1; rewrite Hi; rewrite ?Hcall;
    repeat (solo_step Hlen; rewrite ?Hcall);
    (eexists; split; [done|]); simpl;
    rewrite ?list_lookup_fmap;
    rewrite list_lookup_insert_eq by (rewrite ?length_insert; done);
    rewrite ?app_nil_r; done.
Qed.

(** C4, amended.  While [paused_] stays set: a worker that tests the flag at
    line 59 goes back to the head of its loop without touching the queue, so
    the only pop still possible is by a worker that had passed that test
    before (there is at most one, it holds the mutex), and the only jobs
    still entered are the ones already popped or popped by that worker.
    A worker that has popped a job is not held back by the flag: each of its
    steps is enabled, and left to itself it enters the job, finishes it and
    is back at the head of its loop, the flag still set.  [AddJob] appends
    to the queue as before.  After [Resume()] a worker that is at the head
    of its loop, at the wait or blocked in it pops the front job with its
    next steps. *)
Theorem pause_gates_later_dequeues (k : nat) (s : JobPool) :
  reachable k s → paused_ s = true →
  (∀ tr s', no_resume tr → run tr s = Some s' →
     paused_ s' = true ∧
     (∃ more, dequeued s' = dequeued s ++ more ∧
              length more + total w_past_gate s' ≤ total w_past_gate s) ∧
     length (executed s') + total w_unstarted s'
     ≤ length (executed s) + total w_unstarted s) ∧
  total w_past_gate s ≤ 1 ∧
  (∀ i, threads_ s !! i = Some WCheckPaused →
     ∃ s', step (EvWorker i) s = Some s' ∧ threads_ s' !! i = Some WLoop ∧
           jobs_ s' = jobs_ s ∧ dequeued s' = dequeued s) ∧
  (∀ i pc, threads_ s !! i = Some pc → w_running pc = 1 →
     is_Some (step (EvWorker i) s) ∧
     ∃ s', run (replicate (steps_to_loop pc) (EvWorker i)) s = Some s' ∧
       threads_ s' !! i = Some WLoop ∧ paused_ s' = true ∧
       jobs_ s' = jobs_ s ∧ dequeued s' = dequeued s ∧
       executed s' = executed s ++ held_jobs pc) ∧
  (∀ j, queue_mutex_ s = false →
     ∃ s', step (EvAddJob j) s = Some s' ∧ jobs_ s' = jobs_ s ++ [j] ∧
           paused_ s' = true) ∧
  (∀ i pc j q,
     threads_ s !! i = Some pc → steps_to_pop pc ≠ 0 →
     stop_flag_ s = false → queue_mutex_ s = false → jobs_ s = j :: q →
     ∃ s', run (Resume ++ replicate (steps_to_pop pc) (EvWorker i)) s = Some s' ∧
       threads_ s' !! i = Some (WInc j) ∧ jobs_ s' = q ∧
       dequeued s' = dequeued s ++ [j]).
Proof.
  intros Hinv%reachable_Inv Hp. split_and!.
  - intros tr s' Htr Hrun. by apply (run_paused tr).
  - pose proof (past_gate_holds s). pose proof (inv_mutex _ _ Hinv).
    destruct (queue_mutex_ s); lia.
  - intros i Hi. simpl. unfold worker_step. rewrite Hi, Hp.
    eexists. split; [done|]. simpl.
    rewrite list_lookup_insert_eq by (by eapply lookup_lt_Some). done.
  - intros i pc Hi Hpc. split.
    + simpl. unfold worker_step. rewrite Hi.
      destruct pc; simplify_eq/=; eauto. by destruct (job_call j).
    + destruct (job_in_hand_completes i pc s Hi Hpc)
        as (s' & Hrun & Hi' & Hp' & Hj' & Hd' & He').
      exists s'. split_and!; try done. by rewrite Hp'.
  - intros j Hm. simpl. unfold enqueue. rewrite Hm. eauto.
  - intros i pc j q. apply resume_pops.
Qed.

(** Two states of a paused pool of two workers with [job_bad] queued and
    [job_ok] popped by worker 1: in the first the mutex is free and worker 0
    is at the head of its loop, in the second worker 0 holds the mutex at
    line 59. *)
Lemma pause_gates_later_dequeues_witness :
  let s := default (JobPool_new 2) (run paused_schedule (JobPool_new 2)) in
  let s0 := default s (run [EvWorker 0; EvWorker 0] s) in
  (threads_ s = [WLoop; WRun job_ok] ∧ jobs_ s = [job_bad] ∧
   threads_ s0 = [WCheckPaused; WRun job_ok] ∧ jobs_ s0 = [job_bad]) ∧
  (∀ tr s', no_resume tr → run tr s = Some s' →
     paused_ s' = true ∧ dequeued s' = [job_ok] ∧
     length (executed s') ≤ 1) ∧
  (∃ s', step (EvWorker 0) s0 = Some s' ∧ threads_ s' !! 0 = Some WLoop ∧
         jobs_ s' = [job_bad] ∧ dequeued s' = [job_ok]) ∧
  (∃ s', run (replicate 3 (EvWorker 1)) s = Some s' ∧
         threads_ s' !! 1 = Some WLoop ∧ paused_ s' = true ∧
         jobs_ s' = [job_bad] ∧ dequeued s' = [job_ok] ∧
         executed s' = [job_ok]) ∧
  (∃ s', step (EvAddJob job_ok) s = Some s' ∧
         jobs_ s' = [job_bad; job_ok] ∧ paused_ s' = true) ∧
  (∃ s', run (Resume ++ replicate 4 (EvWorker 0)) s = Some s' ∧
         threads_ s' !! 0 = Some (WInc job_bad) ∧ jobs_ s' = [] ∧
         dequeued s' = [job_ok; job_bad]).
Proof.
  intros s s0.
  assert (reachable 2 s) as Hs.
  { exists paused_schedule. vm_compute. reflexivity. }
  assert (reachable 2 s0) as Hs0.
  { exists (paused_schedule ++ [EvWorker 0; EvWorker 0]). vm_compute. reflexivity. }
  destruct (pause_gates_later_dequeues 2 s Hs eq_refl)
    as (Hgate & _ & _ & Hrun & Hadd & Hresume).
  destruct (pause_gates_later_dequeues 2 s0 Hs0 eq_refl)
    as (_ & _ & Hcheck & _ & _ & _).
  refine (conj _ (conj _ (conj _ (conj _ (conj _ _))))).
  - vm_compute. split_and!; reflexivity.
  - intros tr s' Htr Hrun'.
    destruct (Hgate tr s' Htr Hrun') as (Hp & (more & Hd & Hlen) & He).
    split_and!; [done| |].
    + change (total w_past_gate s) with 0 in Hlen.
      destruct more; [|simpl in Hlen; lia]. by rewrite Hd.
    + change (length (executed s) + total w_unstarted s) with 1 in He. lia.
  - apply (Hcheck 0). reflexivity.
  - apply (Hrun 1 (WRun job_ok)); reflexivity.
  - apply (Hadd job_ok). reflexivity.
  - apply (Hresume 0 WLoop job_bad []); [reflexivity|done|reflexivity..].
Defined.

(** ** The window between the pop and the increment *)

(** C1 at the failing schedule: one worker, one job submitted before the
    call; [WaitForAllJobs] has returned normally and the job has not been
    entered. *)
Lemma wait_returns_before_job_runs :
  ∃ s, run race_schedule (JobPool_new 1) = Some s ∧
    submitted s = [job_ok] ∧ waiters s = [JReturned] ∧
    threads_ s = [WInc job_ok] ∧ occ job_ok (executed s) = 0.
Proof.
  exists (default (JobPool_new 1) (run race_schedule (JobPool_new 1))).
  vm_compute. split_and!; reflexivity.
Qed.

(** C2 at the failing schedule: the worker has popped the job and not
    finished it, [active_jobs_] is 0 and the queue empty, so the drained
    predicate holds, and the caller that was blocked in [WaitForAllJobs]
    passes its wait. *)
Lemma popped_job_is_not_counted :
  ∃ s s', run blocked_waiter_schedule (JobPool_new 1) = Some s ∧
    threads_ s = [WInc job_ok] ∧ executed s = [] ∧
    active_jobs_ s = 0%Z ∧ drained s = true ∧ waiters s = [JWait] ∧
    step (EvWaiter 0) s = Some s' ∧ waiters s' = [JCheckErr].
Proof.
  exists (default (JobPool_new 1)
            (run blocked_waiter_schedule (JobPool_new 1))).
  exists (default (JobPool_new 1)
            (run (blocked_waiter_schedule ++ [EvWaiter 0]) (JobPool_new 1))).
  vm_compute. split_and!; reflexivity.
Qed.

(** What does hold (the window excluded): when the drained predicate holds
    and no worker is between its pop and line 64, every submitted job has
    been entered as often as it was submitted. *)
Lemma drained_quiescent_all_executed k s :
  (Z.of_nat k < SIZE_MOD)%Z →
  reachable k s → drained s = true →
  (∀ i j, threads_ s !! i ≠ Some (WInc j)) →
  ∀ j, occ j (executed s) = occ j (submitted s).
Proof.
  intros Hk Hinv%reachable_Inv [Hq Ha]%drained_is_empty Hno j.
  rewrite (inv_fifo _ _ Hinv), Hq, app_nil_r, (inv_exec _ _ Hinv j).
  rewrite (inv_active _ _ Hinv Hk) in Ha.
  cut (total (w_holding j) s = 0); [lia|]. unfold total in *.
  apply sum_list_with_zero. intros pc [i Hi]%list_elem_of_lookup.
  pose proof (sum_list_with_lookup w_active _ _ _ Hi) as Hle.
  destruct pc; simpl in *; try done; try lia. by destruct (Hno i j0).
Qed.

(** * The sample workloads *)

Section workloads.
Import Workloads.
Local Open Scope Z_scope.

(** ** fibonacci *)

Lemma fib_SS n : fib (S (S n)) = fib (S n) + fib n.
Proof. done. Qed.

Lemma fib_pair_spec n : fib_pair n = (fib n, fib (S n)).
Proof.
  induction n as [|n IH]; [done|].
  cbn [fib_pair]. rewrite IH, fib_SS. f_equal. lia.
Qed.

Lemma fib_fst n : fib n = (fib_pair n).1.
Proof. by rewrite fib_pair_spec. Qed.

Lemma fib_nonneg_mono n : 0 ≤ fib n ∧ fib n ≤ fib (S n).
Proof.
  induction n as [|n [IH1 IH2]]; [simpl; lia|].
  rewrite fib_SS. lia.
Qed.

Lemma fib_mono (n m : nat) : (n ≤ m)%nat → fib n ≤ fib m.
Proof.
  induction 1 as [|m _ IH]; [lia|].
  pose proof (fib_nonneg_mono m). lia.
Qed.

Lemma fib_loop_spec count m :
  fib_loop count (fib m mod UINT64_MOD) (fib (S m) mod UINT64_MOD)
  = fib (count + S m) mod UINT64_MOD.
Proof.
  revert m. induction count as [|c IH]; intros m; [done|].
  cbn [fib_loop]. rewrite <- Zplus_mod, (Z.add_comm (fib m)), <- fib_SS.
  rewrite IH. f_equal. f_equal. lia.
Qed.

(** X1.  For an [int] [n] from 0 up to, not including, [INT_MAX],
    [fibonacci(n)] is the [n]-th Fibonacci number modulo 2^64. *)
Theorem fibonacci_mod (n : Z) :
  0 ≤ n < INT_MAX →
  fibonacci n = Some (fib (Z.to_nat n) mod UINT64_MOD).
Proof.
  intros Hn. unfold fibonacci.
  destruct (Z.leb_spec n 1) as [Hle|Hgt].
  - assert (n = 0 ∨ n = 1) as [-> | ->] by lia; done.
  - destruct (Z.eqb_spec n INT_MAX) as [->|_]; [lia|].
    change 0 with (fib 0 mod UINT64_MOD).
    change 1 with (fib 1 mod UINT64_MOD) at 2.
    rewrite fib_loop_spec. do 3 f_equal. lia.
Qed.

Lemma fibonacci_mod_witness :
  fibonacci 49 = Some 7778742049 ∧
  fibonacci 49 = Some (fib (Z.to_nat 49) mod UINT64_MOD).
Proof.
  split; [vm_compute; reflexivity|].
  apply (fibonacci_mod 49). vm_compute. split; [discriminate|reflexivity].
Defined.

(** X2.  Up to [n = 93] the sum never wraps around: [fibonacci(n)] is the
    [n]-th Fibonacci number itself.  The bound is sharp: the 94th does not
    fit 64 bits. *)
Theorem fibonacci_exact (n : Z) :
  0 ≤ n ≤ 93 →
  fibonacci n = Some (fib (Z.to_nat n)) ∧ UINT64_MOD ≤ fib 94.
Proof.
  intros Hn.
  assert (fib 93 = 12200160415121876738) as H93.
  { rewrite (fib_fst 93). vm_compute. reflexivity. }
  assert (fib 94 = 19740274219868223167) as H94.
  { rewrite (fib_fst 94). vm_compute. reflexivity. }
  split; [|rewrite H94; vm_compute; discriminate].
  rewrite fibonacci_mod by (unfold INT_MAX; lia).
  pose proof (fib_nonneg_mono (Z.to_nat n)) as [H0 _].
  pose proof (fib_mono (Z.to_nat n) 93 ltac:(lia)) as Hle.
  rewrite Z.mod_small; [done|]. rewrite H93 in Hle. unfold UINT64_MOD. lia.
Qed.

Lemma fibonacci_exact_witness :
  fibonacci 93 = Some (fib (Z.to_nat 93)) ∧ UINT64_MOD ≤ fib 94.
Proof. apply (fibonacci_exact 93). vm_compute. split; discriminate. Defined.

(** ** prime_factorization *)

Lemma divide_out_fuel_spec fuel : ∀ i n fs,
  2 ≤ i → 1 ≤ n → Z.log2 n < Z.of_nat fuel →
  ∃ n' m, divide_out_fuel fuel i n fs = Some (n', fs ++ replicate m i) ∧
    n = n' * i ^ Z.of_nat m ∧ 1 ≤ n' ∧ ¬ (i | n').
Proof.
  induction fuel as [|f IH]; intros i n fs Hi Hn Hlog.
  { pose proof (Z.log2_nonneg n). lia. }
  cbn [divide_out_fuel].
  destruct (Z.eqb_spec i 0) as [?|_]; [lia|].
  destruct (Z.eqb_spec (n mod i) 0) as [Hmod|Hmod].
  - apply Z.div_exact in Hmod; [|lia].
    assert (1 ≤ n / i) as Hq by nia.
    destruct (IH i (n / i) (fs ++ [i])) as (n' & m & Heq & Hprod & Hn' & Hnd);
      [done..| |].
    { apply Z.log2_lt_pow2; [lia|].
      apply Z.log2_lt_pow2 in Hlog; [|lia].
      replace (Z.of_nat (S f)) with (Z.succ (Z.of_nat f)) in Hlog by lia.
      rewrite Z.pow_succ_r in Hlog by lia. nia. }
    exists n', (S m). rewrite Heq, <- (assoc_L (++)). split; [done|].
    split; [|done].
    replace (Z.of_nat (S m)) with (Z.succ (Z.of_nat m)) by lia.
    rewrite Z.pow_succ_r by lia. nia.
  - exists n, 0%nat. rewrite app_nil_r. split; [done|].
    split; [simpl; lia|]. split; [done|].
    intros Hdiv. apply Hmod. apply Z.mod_divide; [lia|done].
Qed.

Lemma no_small_divisor_prime i n :
  2 ≤ i → 1 < n → n < i * i → no_divisor_below i n → Z.prime n ∧ i ≤ n.
Proof.
  intros Hi Hn Hsq Hnd. split.
  - split; [done|]. intros d Hd [q Hq].
    assert (2 ≤ q < n) as Hqr by nia.
    assert (¬ d < i) as Hdi. { intros ?. apply (Hnd d); [lia|]. by exists q. }
    assert (¬ q < i) as Hqi.
    { intros ?. apply (Hnd q); [lia|]. exists d. lia. }
    nia.
  - destruct (Z.le_gt_cases i n) as [?|Hlt]; [done|].
    destruct (Hnd n); [lia|]. apply Z.divide_refl.
Qed.

Lemma trial_loop_spec fuel : ∀ i n fs,
  2 ≤ i ≤ 2 ^ 32 - 1 → 1 ≤ n < NO_WRAP_BOUND →
  no_divisor_below i n →
  (0 < fuel)%nat → Z.sqrt n - i + 1 < Z.of_nat fuel →
  ∃ out, trial_loop fuel i n fs = Some (fs ++ out) ∧
    product out = n ∧ Forall Z.prime out ∧ Forall (Z.le i) out ∧
    StronglySorted Z.le out.
Proof.
  induction fuel as [|f IH]; intros i n fs Hi Hn Hnd Hpos Hfuel; [lia|].
  cbn [trial_loop]. unfold NO_WRAP_BOUND in Hn.
  change (2 ^ 32 - 1) with 4294967295 in *.
  change UINT64_MOD with 18446744073709551616.
  rewrite (Z.mod_small (i * i)) by nia.
  destruct (Z.leb_spec (i * i) n) as [Hle|Hgt].
  - unfold divide_out.
    destruct (divide_out_fuel_spec (S (Z.to_nat (Z.log2 n))) i n fs)
      as (n' & m & -> & Hprod & Hn' & Hnot); [lia..|].
    assert (1 ≤ i ^ Z.of_nat m) as Hpow.
    { pose proof (Z.pow_pos_nonneg i (Z.of_nat m)). lia. }
    assert (i ≤ Z.sqrt n) as Hsqrt by (apply Z.sqrt_le_square; lia).
    assert (i < 4294967295) as Hlt by nia.
    assert (n' ≤ n) as Hle' by nia.
    assert (Z.sqrt n' ≤ Z.sqrt n) as Hmono by (by apply Z.sqrt_le_mono).
    rewrite Z.mod_small by lia.
    destruct (IH (i + 1) n' (fs ++ replicate m i))
      as (out & -> & Hout & Hprimes & Hge & Hsorted);
      [lia|unfold NO_WRAP_BOUND; lia| |lia|lia|].
    { intros d Hd Hdiv. destruct (decide (d = i)) as [->|]; [done|].
      apply (Hnd d); [lia|]. rewrite Hprod. by apply Z.divide_mul_l. }
    exists (replicate m i ++ out). rewrite (assoc_L (++)). split; [done|].
    split_and!.
    + rewrite Hprod, <- Hout. clear. induction m as [|m IHm]; [simpl; lia|].
      replace (Z.of_nat (S m)) with (Z.succ (Z.of_nat m)) by lia.
      rewrite Z.pow_succ_r by lia. simpl. unfold product in *. simpl in *. lia.
    + apply Forall_app. split; [|done].
      destruct m as [|m]; [constructor|]. apply Forall_replicate.
      split; [lia|]. intros d Hd Hdiv. apply (Hnd d); [lia|].
      rewrite Hprod. apply Z.divide_mul_r.
      etrans; [done|]. exists (i ^ Z.of_nat m).
      replace (Z.of_nat (S m)) with (Z.succ (Z.of_nat m)) by lia.
      rewrite Z.pow_succ_r by lia. lia.
    + apply Forall_app. split; [apply Forall_replicate; lia|].
      eapply Forall_impl; [done|]. simpl. lia.
    + apply StronglySorted_app. split_and!; [| |done].
      * intros x y [-> _]%elem_of_replicate Hy.
        rewrite Forall_forall in Hge. specialize (Hge y Hy). lia.
      * clear. induction m; constructor; [done|]. apply Forall_replicate. lia.
  - destruct (Z.ltb_spec 1 n) as [H1|H1].
    + destruct (no_small_divisor_prime i n) as [Hp Hin]; [lia|done..|].
      exists [n]. split; [done|]. unfold product. simpl.
      split_and!; [lia|by constructor|by constructor|by repeat constructor].
    + exists []. rewrite app_nil_r. split; [done|]. unfold product. simpl.
      split_and!; [lia|constructor..].
Qed.

Lemma divide_out_fuel_mono f : ∀ f' i n fs r,
  divide_out_fuel f i n fs = Some r → (f ≤ f')%nat →
  divide_out_fuel f' i n fs = Some r.
Proof.
  induction f as [|f IH]; intros f' i n fs r Hr Hle; [done|].
  destruct f' as [|f']; [lia|]. cbn [divide_out_fuel] in *.
  destruct (i =? 0); [done|]. destruct (n mod i =? 0); [|done].
  apply IH; [done|lia].
Qed.

Lemma trial_loop_mono f : ∀ f' i n fs r,
  trial_loop f i n fs = Some r → (f ≤ f')%nat →
  trial_loop f' i n fs = Some r.
Proof.
  induction f as [|f IH]; intros f' i n fs r Hr Hle; [done|].
  destruct f' as [|f']; [lia|]. cbn [trial_loop] in *.
  destruct (_ <=? n); [|done].
  destruct (divide_out i n fs) as [[n' fs']|]; [|done].
  apply IH; [done|lia].
Qed.

Lemma prime_factorization_spec fuel n fs :
  1 ≤ n < NO_WRAP_BOUND → prime_factorization fuel n = Some fs →
  product fs = n ∧ Forall Z.prime fs ∧ StronglySorted Z.le fs.
Proof.
  intros Hn Hfs. unfold prime_factorization in *.
  destruct (trial_loop_spec (fuel `max` S (Z.to_nat (Z.sqrt n))) 2 n [])
    as (out & Hout & Hprod & Hprimes & _ & Hsorted);
    [done|done|intros d ?; lia|lia|lia|].
  apply (trial_loop_mono _ (fuel `max` S (Z.to_nat (Z.sqrt n)))) in Hfs; [|lia].
  rewrite Hfs in Hout. by simplify_eq/=.
Qed.

(** X3.  For [1 <= n < (2^32 - 1)^2] the function returns, after at most
    [sqrt n + 1] tests of the outer loop, and the product of the returned
    factors is [n]. *)
Theorem prime_factorization_product (fuel : nat) (n : Z) :
  1 ≤ n < NO_WRAP_BOUND → Z.sqrt n < Z.of_nat fuel →
  ∃ fs, prime_factorization fuel n = Some fs ∧ product fs = n.
Proof.
  intros Hn Hfuel.
  destruct (trial_loop_spec fuel 2 n []) as (out & Hout & Hprod & _);
    [done|done|intros d ?; lia| |lia|].
  { pose proof (Z.sqrt_nonneg n). lia. }
  exists out. done.
Qed.

Lemma prime_factorization_product_witness :
  prime_factorization 20 360 = Some [2; 2; 2; 3; 3; 5] ∧
  ∃ fs, prime_factorization 20 360 = Some fs ∧ product fs = 360.
Proof.
  split; [vm_compute; reflexivity|].
  apply (prime_factorization_product 20 360); vm_compute; by try split.
Defined.

(** X4.  Every factor that [prime_factorization] returns is a prime
    number. *)
Theorem prime_factorization_primes (fuel : nat) (n : Z) (fs : list Z) :
  1 ≤ n < NO_WRAP_BOUND → prime_factorization fuel n = Some fs →
  Forall Z.prime fs.
Proof. intros Hn Hfs. by destruct (prime_factorization_spec fuel n fs) as (_ & ? & _). Qed.

Lemma prime_factorization_primes_witness :
  Forall Z.prime [2; 2; 2; 3; 3; 5].
Proof.
  apply (prime_factorization_primes 20 360);
    vm_compute; by try split.
Defined.

(** X5.  The factors come in ascending order. *)
Theorem prime_factorization_sorted (fuel : nat) (n : Z) (fs : list Z) :
  1 ≤ n < NO_WRAP_BOUND → prime_factorization fuel n = Some fs →
  StronglySorted Z.le fs.
Proof. intros Hn Hfs. by destruct (prime_factorization_spec fuel n fs) as (_ & _ & ?). Qed.

Lemma prime_factorization_sorted_witness :
  StronglySorted Z.le [2; 2; 2; 3; 3; 5].
Proof.
  apply (prime_factorization_sorted 20 360);
    vm_compute; by try split.
Defined.

Lemma product_primes_ge l : Forall Z.prime l → l ≠ [] → 2 ≤ product l.
Proof.
  induction 1 as [|p l [Hp _] _ IH]; [done|]. intros _.
  unfold product in *. simpl. destruct l as [|q l]; [simpl; lia|].
  specialize (IH ltac:(done)). nia.
Qed.

(** X6.  A prime number is returned as the only factor of itself. *)
Theorem prime_factorization_of_prime (fuel : nat) (n : Z) (fs : list Z) :
  Z.prime n → n < NO_WRAP_BOUND → prime_factorization fuel n = Some fs →
  fs = [n].
Proof.
  intros [Hn Hdiv] Hb Hfs.
  destruct (prime_factorization_spec fuel n fs) as (Hprod & Hprimes & _);
    [lia|done|].
  destruct fs as [|p fs]; [unfold product in Hprod; simpl in Hprod; lia|].
  apply Forall_cons in Hprimes as [[Hp _] Hrest].
  unfold product in Hprod. simpl in Hprod. fold (product fs) in Hprod.
  destruct fs as [|q fs].
  - unfold product in Hprod. simpl in Hprod. f_equal. lia.
  - pose proof (product_primes_ge (q :: fs) Hrest ltac:(done)) as Hge.
    destruct (Hdiv p); [nia|]. exists (product (q :: fs)). lia.
Qed.

Lemma prime_factorization_of_prime_witness :
  prime_factorization 10 97 = Some [97] ∧ [97] = [97].
Proof.
  split; [vm_compute; reflexivity|].
  apply (prime_factorization_of_prime 10 97).
  - destruct (prime_factorization_spec 10 97 [97]) as (_ & Hp & _);
      [vm_compute; by split|vm_compute; reflexivity|].
    by apply Forall_inv in Hp.
  - vm_compute. reflexivity.
  - vm_compute. reflexivity.
Defined.

(** X7.  For [n] below [(2^32 - 1)^2] the result is the empty list exactly
    when [n] is 0 or 1: then the loop is not entered and line 62 adds
    nothing.  (For 0 the product of the result is therefore not [n].) *)
Theorem prime_factorization_empty (fuel : nat) (n : Z) (fs : list Z) :
  0 ≤ n < NO_WRAP_BOUND → prime_factorization fuel n = Some fs →
  fs = [] ↔ n ≤ 1.
Proof.
  intros Hn Hfs. destruct (decide (n = 0)) as [->|Hn0].
  - destruct fuel; [done|]. vm_compute in Hfs. by simplify_eq.
  - destruct (prime_factorization_spec fuel n fs) as (Hprod & _); [lia|done|].
    split.
    + intros ->. unfold product in Hprod. simpl in Hprod. lia.
    + intros Hle. assert (n = 1) as -> by lia.
      destruct fuel; [done|]. vm_compute in Hfs. by simplify_eq.
Qed.

Lemma prime_factorization_empty_witness :
  prime_factorization 1 0 = Some [] ∧ (@nil Z = [] ↔ 0 ≤ 1).
Proof.
  split; [vm_compute; reflexivity|].
  apply (prime_factorization_empty 1 0 []).
  - vm_compute. by split.
  - vm_compute. reflexivity.
Defined.

(** ** collatz_steps *)

Lemma collatz_loop_zero fuel : ∀ steps, collatz_loop fuel 0 steps = None.
Proof.
  induction fuel as [|f IH]; intros steps; [done|].
  cbn [collatz_loop]. change (0 =? 1) with false. cbv iota.
  destruct (steps =? INT_MAX); [done|]. apply IH.
Qed.

(** X8.  [collatz_steps(0)] never returns: 0 is even and its half is 0
    again. *)
Theorem collatz_steps_zero_diverges (fuel : nat) :
  collatz_steps fuel 0 = None.
Proof. apply collatz_loop_zero. Qed.

Lemma collatz_loop_spec fuel : ∀ n steps k,
  steps ≤ INT_MAX →
  collatz_loop fuel n steps = Some k ↔
  ∃ m : nat, k = steps + Z.of_nat m ∧ (m < fuel)%nat ∧ k ≤ INT_MAX ∧
    Nat.iter m collatz_next n = 1 ∧
    ∀ m' : nat, (m' < m)%nat → Nat.iter m' collatz_next n ≠ 1.
Proof.
  induction fuel as [|f IH]; intros n steps k Hs.
  { split; [done|]. intros (m & _ & ? & _). lia. }
  cbn [collatz_loop]. destruct (Z.eqb_spec n 1) as [->|Hn1].
  - split.
    + intros [= <-]. exists 0%nat. split_and!; [lia|lia|done|done|lia].
    + intros (m & -> & _ & _ & _ & Hfirst). destruct m as [|m]; [f_equal; lia|].
      by destruct (Hfirst 0%nat ltac:(lia)).
  - destruct (Z.eqb_spec steps INT_MAX) as [->|Hmax].
    + split; [done|]. intros (m & -> & _ & Hle & Hone & _).
      destruct m as [|m]; [done|lia].
    + rewrite IH by lia. split.
      * intros (m & -> & Hm & Hle & Hone & Hfirst). exists (S m).
        rewrite Nat.iter_succ_r. split_and!; [lia|lia|lia|done|].
        intros [|m'] Hm'; [done|]. rewrite Nat.iter_succ_r. apply Hfirst. lia.
      * intros (m & -> & Hm & Hle & Hone & Hfirst).
        destruct m as [|m]; [done|]. exists m.
        rewrite Nat.iter_succ_r in Hone. split_and!; [lia|lia|lia|done|].
        intros m' Hm'. specialize (Hfirst (S m') ltac:(lia)).
        by rewrite Nat.iter_succ_r in Hfirst.
Qed.

(** X9.  [collatz_steps(n)] returns [k] exactly when [k] is the first
    number of passes through the loop body after which the value is 1 (and
    [k] fits an [int]). *)
Theorem collatz_steps_first_hit (fuel : nat) (n k : Z) :
  collatz_steps fuel n = Some k ↔
  ∃ m : nat, k = Z.of_nat m ∧ (m < fuel)%nat ∧ k ≤ INT_MAX ∧
    Nat.iter m collatz_next n = 1 ∧
    ∀ m' : nat, (m' < m)%nat → Nat.iter m' collatz_next n ≠ 1.
Proof.
  unfold collatz_steps. rewrite collatz_loop_spec by done.
  split; intros (m & Hk & ?); exists m; (split; [lia|done]).
Qed.

Lemma collatz_loop_pow2 (k : nat) : ∀ fuel steps,
  (k < fuel)%nat → steps + Z.of_nat k ≤ INT_MAX →
  collatz_loop fuel (2 ^ Z.of_nat k) steps = Some (steps + Z.of_nat k).
Proof.
  induction k as [|k IH]; intros [|f] steps Hf Hs; try lia.
  - simpl. f_equal. lia.
  - cbn [collatz_loop].
    replace (Z.of_nat (S k)) with (Z.succ (Z.of_nat k)) by lia.
    rewrite Z.pow_succ_r by lia.
    pose proof (Z.pow_pos_nonneg 2 (Z.of_nat k)) as Hpos.
    destruct (Z.eqb_spec (2 * 2 ^ Z.of_nat k) 1) as [?|_]; [lia|].
    destruct (Z.eqb_spec steps INT_MAX) as [?|_]; [lia|].
    unfold collatz_next.
    rewrite (Z.mul_comm 2), Z.mod_mul, Z.div_mul by lia. simpl.
    rewrite IH by lia. f_equal. lia.
Qed.

(** X10.  A power of two [2^k] that fits 64 bits takes exactly [k]
    steps. *)
Theorem collatz_steps_pow2 (fuel k : nat) :
  (k ≤ 63)%nat → (k < fuel)%nat →
  collatz_steps fuel (2 ^ Z.of_nat k) = Some (Z.of_nat k).
Proof.
  intros Hk Hf. unfold collatz_steps.
  rewrite collatz_loop_pow2; [done|done|]. unfold INT_MAX. lia.
Qed.

Lemma collatz_steps_pow2_witness :
  collatz_steps 11 (2 ^ Z.of_nat 10) = Some (Z.of_nat 10).
Proof. apply (collatz_steps_pow2 11 10); lia. Defined.
End workloads.

(** * More about the pool *)

(** ** AddJobs *)

(** X11.  [AddJobs(js)] leaves the pool as a sequence of [AddJob] calls for
    the elements of [js], in order, would: the same queue and the same
    submission history.  It does so in one critical section. *)
Theorem AddJobs_as_AddJob_sequence (js : list Job) (s : JobPool) :
  queue_mutex_ s = false →
  run (EvAddJob <$> js) s = step (EvAddJobs js) s.
Proof.
  revert s. induction js as [|j js IH]; intros s Hm.
  - simpl. unfold enqueue. rewrite Hm. destruct s; unfold_set.
    by rewrite !app_nil_r.
  - csimpl. unfold enqueue at 1. rewrite Hm. rewrite IH by done.
    simpl. unfold enqueue. simpl. rewrite Hm. destruct s; unfold_set.
    by rewrite <- !(assoc_L (++)).
Qed.

Lemma AddJobs_as_AddJob_sequence_witness :
  run (EvAddJob <$> [job_ok; job_bad]) (JobPool_new 2)
  = step (EvAddJobs [job_ok; job_bad]) (JobPool_new 2).
Proof. apply (AddJobs_as_AddJob_sequence [job_ok; job_bad]). reflexivity. Defined.

(** ** An idle worker *)

Lemma JobPool_eq (s1 s2 : JobPool) :
  threads_ s1 = threads_ s2 → jobs_ s1 = jobs_ s2 →
  queue_mutex_ s1 = queue_mutex_ s2 → stop_flag_ s1 = stop_flag_ s2 →
  active_jobs_ s1 = active_jobs_ s2 → paused_ s1 = paused_ s2 →
  last_exception_ s1 = last_exception_ s2 → waiters s1 = waiters s2 →
  dtor s1 = dtor s2 → submitted s1 = submitted s2 →
  dequeued s1 = dequeued s2 → executed s1 = executed s2 →
  raised s1 = raised s2 → recorded s1 = recorded s2 →
  s1 = s2.
Proof. destruct s1, s2; simpl; intros; by subst. Qed.

(** X12.  What a worker does when it runs alone from the head of its loop,
    the mutex free and [stop_flag_] clear, by the pause flag and the queue.
    Unpaused with an empty queue, or paused with jobs queued, it busy-waits:
    it takes the mutex, finds nothing it may pop, releases the mutex and is
    back at the head of its loop with the pool exactly as it was.  Paused
    with an empty queue, its predicate fails and it blocks in
    [condition_.wait].  Unpaused with jobs queued, it pops the front job. *)
Theorem idle_worker_spins (i : nat) (s : JobPool) :
  threads_ s !! i = Some WLoop →
  stop_flag_ s = false → queue_mutex_ s = false →
  (paused_ s = false → jobs_ s = [] →
     run (replicate 4 (EvWorker i)) s = Some s) ∧
  (paused_ s = true → jobs_ s ≠ [] →
     run (replicate 3 (EvWorker i)) s = Some s) ∧
  (paused_ s = true → jobs_ s = [] →
     run (replicate 3 (EvWorker i)) s = Some (at_pc i WBlocked s)) ∧
  (paused_ s = false → ∀ j q, jobs_ s = j :: q →
     run (replicate 4 (EvWorker i)) s
     = Some (at_pc i (WInc j) (set_jobs q (log_dequeued j s)))).
Proof.
  intros Hi Hstop Hm. pose proof (lookup_lt_Some _ _ _ Hi) as Hlen.
  split_and!.
  - intros Hp Hj. simpl replicate.
    cbn [run step]; unfold worker_step at 1. rewrite Hi, Hstop.
    solo_step Hlen. unfold worker_pred. simpl. rewrite Hm, Hstop, Hj, Hp. simpl.
    solo_step Hlen. rewrite Hp.
    solo_step Hlen. rewrite Hj. f_equal.
    apply JobPool_eq; simpl; try done.
    by rewrite !list_insert_insert_eq, list_insert_id.
  - intros Hp Hj. simpl replicate.
    cbn [run step]; unfold worker_step at 1. rewrite Hi, Hstop.
    solo_step Hlen. unfold worker_pred. simpl. rewrite Hm, Hstop.
    destruct (jobs_ s) eqn:Hq; [done|]. simpl.
    solo_step Hlen. rewrite Hp. f_equal.
    apply JobPool_eq; simpl; try done.
    by rewrite !list_insert_insert_eq, list_insert_id.
  - intros Hp Hj. simpl replicate.
    cbn [run step]; unfold worker_step at 1. rewrite Hi, Hstop.
    solo_step Hlen. unfold worker_pred. simpl. rewrite Hm, Hstop, Hj, Hp. simpl.
    solo_step Hlen.
    f_equal. apply JobPool_eq; simpl; try done.
    by rewrite !list_insert_insert_eq.
  - intros Hp j q Hj. simpl replicate.
    cbn [run step]; unfold worker_step at 1. rewrite Hi, Hstop.
    solo_step Hlen. unfold worker_pred. simpl. rewrite Hm, Hstop, Hj. simpl.
    solo_step Hlen. rewrite Hp.
    solo_step Hlen. rewrite Hj. f_equal.
    apply JobPool_eq; simpl; try done.
    by rewrite !list_insert_insert_eq.
Qed.

(** The four cases at a pool of two workers: fresh; after [AddJob] and
    [Pause()]; after [Pause()]; after [AddJob]. *)
Lemma idle_worker_spins_witness :
  let s1 := JobPool_new 2 in
  let s2 := default s1 (run (AddJob job_ok None ++ Pause) s1) in
  let s3 := default s1 (run Pause s1) in
  let s4 := default s1 (run (AddJob job_ok None) s1) in
  run (replicate 4 (EvWorker 1)) s1 = Some s1 ∧
  run (replicate 3 (EvWorker 1)) s2 = Some s2 ∧
  run (replicate 3 (EvWorker 1)) s3 = Some (at_pc 1 WBlocked s3) ∧
  run (replicate 4 (EvWorker 1)) s4
  = Some (at_pc 1 (WInc job_ok) (set_jobs [] (log_dequeued job_ok s4))).
Proof.
  intros s1 s2 s3 s4.
  destruct (idle_worker_spins 1 s1 eq_refl eq_refl eq_refl) as (H1 & _).
  destruct (idle_worker_spins 1 s2 eq_refl eq_refl eq_refl) as (_ & H2 & _).
  destruct (idle_worker_spins 1 s3 eq_refl eq_refl eq_refl) as (_ & _ & H3 & _).
  destruct (idle_worker_spins 1 s4 eq_refl eq_refl eq_refl) as (_ & _ & _ & H4).
  refine (conj _ (conj _ (conj _ _))).
  - apply H1; reflexivity.
  - apply H2; [reflexivity|discriminate].
  - apply H3; reflexivity.
  - apply (H4 eq_refl job_ok []). reflexivity.
Defined.

(** ** WaitForAllJobs on a drained pool *)

(** X13.  On a pool whose queue is empty and whose [active_jobs_] is 0, with
    the mutex free, a call of [WaitForAllJobs] does not block: its two
    steps end it, normally when no failure is recorded and by rethrowing
    [last_exception_] otherwise, and they leave every member of the pool as
    it was. *)
Theorem wait_on_drained_pool (s : JobPool) :
  queue_mutex_ s = false → drained s = true →
  let n := length (waiters s) in
  run [EvWaitForAllJobs; EvWaiter n; EvWaiter n] s
  = Some (set_waiters
            (waiters s ++ [match last_exception_ s with
                           | Some e => JRaised e
                           | None => JReturned
                           end]) s).
Proof.
  intros Hm Hd n. cbn [run step]. unfold waiter_step at 1. simpl.
  rewrite lookup_app_r, Nat.sub_diag by done. simpl.
  unfold drained in *. simpl. rewrite Hm, Hd.
  unfold waiter_step. simpl.
  rewrite list_lookup_insert_eq by (rewrite length_app; simpl; lia).
  f_equal. apply JobPool_eq; simpl; try done.
  rewrite list_insert_insert_eq.
  rewrite insert_app_r_alt, Nat.sub_diag by done. done.
Qed.

Lemma wait_on_drained_pool_witness :
  let s := JobPool_new 4 in
  let n := length (waiters s) in
  run [EvWaitForAllJobs; EvWaiter n; EvWaiter n] s
  = Some (set_waiters
            (waiters s ++ [match last_exception_ s with
                           | Some e => JRaised e
                           | None => JReturned
                           end]) s).
Proof. intros s. apply (wait_on_drained_pool s); reflexivity. Defined.

(** ** The accessors *)

(** X14.  In every reachable state [GetThreadCount] is the number of workers
    the pool was built with, and [GetQueueSize], when it gets the mutex, is
    the number of jobs submitted minus the number of jobs popped. *)
Theorem accessors_snapshot (k : nat) (s : JobPool) :
  reachable k s →
  GetThreadCount s = k ∧
  ∀ n, GetQueueSize s = Some n →
       n + length (dequeued s) = length (submitted s).
Proof.
  intros Hinv%reachable_Inv. split; [apply (inv_len _ _ Hinv)|].
  unfold GetQueueSize. intros n Hn. destruct (queue_mutex_ s); [done|].
  simplify_eq. rewrite (inv_fifo _ _ Hinv), length_app. lia.
Qed.

Lemma accessors_snapshot_witness :
  let s := default (JobPool_new 2)
             (run (AddJobs [job_ok; job_bad] ++ replicate 4 (EvWorker 0))
                (JobPool_new 2)) in
  GetQueueSize s = Some 1 ∧
  GetThreadCount s = 2 ∧
  ∀ n, GetQueueSize s = Some n →
       n + length (dequeued s) = length (submitted s).
Proof.
  intros s. split; [vm_compute; reflexivity|].
  apply (accessors_snapshot 2 s).
  exists (AddJobs [job_ok; job_bad] ++ replicate 4 (EvWorker 0)).
  vm_compute. reflexivity.
Defined.

(** ** A pool with one worker *)

Lemma step_serial ev s s' pc :
  threads_ s = [pc] → dequeued s = executed s ++ held_jobs pc →
  step ev s = Some s' →
  ∃ pc', threads_ s' = [pc'] ∧ dequeued s' = executed s' ++ held_jobs pc'.
Proof.
  intros Ht Hd Hstep. destruct ev; step_cases Hstep.
  all: rewrite Ht in *.
  all: try match goal with
       | H : [_] !! ?i = Some _ |- _ => destruct i as [|[|?]]; simplify_eq/=
       end.
  all: eexists; (split; [reflexivity|]).
  all: simpl; rewrite ?Hd; simpl; rewrite ?app_nil_r, <- ?(assoc_L (++)).
  all: try done.
  all: by destruct pc.
Qed.

Lemma run_serial tr : ∀ s s' pc,
  threads_ s = [pc] → dequeued s = executed s ++ held_jobs pc →
  run tr s = Some s' →
  ∃ pc', threads_ s' = [pc'] ∧ dequeued s' = executed s' ++ held_jobs pc'.
Proof.
  induction tr as [|ev tr IH]; intros s s' pc Ht Hd Hrun; simpl in *.
  - simplify_eq. eauto.
  - destruct (step ev s) as [s1|] eqn:Hstep; [|done].
    destruct (step_serial _ _ _ _ Ht Hd Hstep) as (pc1 & Ht1 & Hd1). eauto.
Qed.

(** X15.  A pool with a single worker is a serial executor: in every
    reachable state the jobs entered so far are, in order, the first jobs
    submitted, and at most one popped job is waiting to be entered. *)
Theorem single_worker_runs_in_order (s : JobPool) :
  reachable 1 s →
  executed s `prefix_of` submitted s ∧
  ∃ held, dequeued s = executed s ++ held ∧ length held ≤ 1.
Proof.
  intros Hreach. pose proof (reachable_Inv _ _ Hreach) as Hinv.
  destruct Hreach as [tr Hrun].
  destruct (run_serial tr (JobPool_new 1) s WLoop) as (pc & Ht & Hd);
    [done..|].
  split.
  - exists (held_jobs pc ++ jobs_ s).
    by rewrite (inv_fifo _ _ Hinv), Hd, <- (assoc_L (++)).
  - exists (held_jobs pc). split; [done|]. destruct pc; simpl; lia.
Qed.

Lemma single_worker_runs_in_order_witness :
  let s := default (JobPool_new 1)
             (run (AddJobs [job_bad; job_ok] ++ worker_cycle 0 job_bad
                   ++ replicate 4 (EvWorker 0))
                (JobPool_new 1)) in
  (executed s = [job_bad] ∧ dequeued s = [job_bad; job_ok]) ∧
  executed s `prefix_of` submitted s ∧
  ∃ held, dequeued s = executed s ++ held ∧ length held ≤ 1.
Proof.
  intros s. split; [vm_compute; by split|].
  apply (single_worker_runs_in_order s).
  exists (AddJobs [job_bad; job_ok] ++ worker_cycle 0 job_bad
          ++ replicate 4 (EvWorker 0)).
  vm_compute. reflexivity.
Defined.

(** ** Where a recorded exception comes from *)

Lemma failures_app l1 l2 : failures (l1 ++ l2) = failures l1 ++ failures l2.
Proof. unfold failures. apply omap_app. Qed.

Lemma step_raised ev s s' :
  raised s = failures (executed s) → step ev s = Some s' →
  raised s' = failures (executed s').
Proof.
  intros Hr Hstep. destruct ev; step_cases Hstep; try done.
  all: rewrite failures_app, Hr; unfold failures; simpl.
  all: match goal with H : job_call _ = _ |- _ => rewrite H end.
  all: by rewrite ?app_nil_r.
Qed.

Lemma run_raised tr : ∀ s s',
  raised s = failures (executed s) → run tr s = Some s' →
  raised s' = failures (executed s').
Proof.
  induction tr as [|ev tr IH]; intros s s' Hr Hrun; simpl in *.
  - by simplify_eq.
  - destruct (step ev s) as [s1|] eqn:Hstep; [|done].
    eauto using step_raised.
Qed.

Lemma occ_pos_elem {A} `{EqDecision A} (x : A) l : 0 < occ x l ↔ x ∈ l.
Proof.
  induction l as [|a l IH].
  { rewrite occ_nil. split; [lia|]. by intros ?%elem_of_nil. }
  rewrite occ_cons, elem_of_cons. case_decide; subst.
  - split; [by left|lia].
  - rewrite <- IH. split; [intros ?; right; lia|intros [?|?]; [done|lia]].
Qed.

(** X16.  What [last_exception_] holds was thrown by a job of this pool:
    in every reachable state a non-null [last_exception_] is the exception
    of some submitted job that has been entered. *)
Theorem last_exception_from_a_job (k : nat) (s : JobPool) (e : exception) :
  reachable k s → last_exception_ s = Some e →
  ∃ j, j ∈ submitted s ∧ j ∈ executed s ∧ job_call j = Throws e.
Proof.
  intros Hreach He. pose proof (reachable_Inv _ _ Hreach) as Hinv.
  destruct Hreach as [tr Hrun].
  pose proof (run_raised tr (JobPool_new k) s eq_refl Hrun) as Hraised.
  rewrite (inv_last _ _ Hinv) in He.
  assert (e ∈ recorded s) as Hrec.
  { destruct (recorded s) as [|x l _] using rev_ind; [done|].
    rewrite last_snoc in He. simplify_eq. apply elem_of_app. right. by left. }
  assert (e ∈ raised s) as Hin.
  { apply occ_pos_elem. apply occ_pos_elem in Hrec.
    pose proof (inv_raise _ _ Hinv e). lia. }
  rewrite Hraised in Hin. unfold failures in Hin.
  apply list_elem_of_omap in Hin as (j & Hj & Hcall).
  exists j. split_and!; [|done|by destruct (job_call j); simplify_eq].
  apply occ_pos_elem. apply occ_pos_elem in Hj.
  rewrite (inv_fifo _ _ Hinv), occ_app.
  pose proof (inv_exec _ _ Hinv j). lia.
Qed.

Lemma last_exception_from_a_job_witness :
  let s := default (JobPool_new 1)
             (run (AddJobs [job_ok; job_bad] ++ worker_cycle 0 job_ok
                   ++ worker_cycle 0 job_bad)
                (JobPool_new 1)) in
  ∃ j, j ∈ submitted s ∧ j ∈ executed s ∧ job_call j = Throws "Test exception".
Proof.
  intros s. apply (last_exception_from_a_job 1 s "Test exception").
  - exists (AddJobs [job_ok; job_bad] ++ worker_cycle 0 job_ok
            ++ worker_cycle 0 job_bad).
    vm_compute. reflexivity.
  - vm_compute. reflexivity.
Defined.

(** ** Teardown comes to an end *)

Lemma worker_exits_from_loop i s :
  stop_flag_ s = true → threads_ s !! i = Some WLoop →
  ∃ s', run [EvWorker i] s = Some s' ∧
    threads_ s' !! i = Some WExit ∧ queue_mutex_ s' = queue_mutex_ s ∧
    stop_flag_ s' = true ∧ dtor s' = dtor s ∧ jobs_ s' = jobs_ s.
Proof.
  intros Hstop Hi. pose proof (lookup_lt_Some _ _ _ Hi) as Hlen.
  cbn [run step]. unfold worker_step. rewrite Hi, Hstop.
  eexists. split; [done|]. simpl.
  by rewrite list_lookup_insert_eq.
Qed.

(** One step of a worker that has a job in hand, or is past it, touches
    neither the mutex nor the queue nor the flags. *)
Lemma worker_step_in_hand i pc s :
  threads_ s !! i = Some pc → w_running pc = 1 →
  ∃ s' pc', step (EvWorker i) s = Some s' ∧
    threads_ s' !! i = Some pc' ∧
    steps_to_exit pc = S (steps_to_exit pc') ∧
    w_holds pc' = 0 ∧ pc' ≠ WBlocked ∧
    queue_mutex_ s' = queue_mutex_ s ∧ stop_flag_ s' = stop_flag_ s ∧
    dtor s' = dtor s ∧ jobs_ s' = jobs_ s.
Proof.
  intros Hi Hr. pose proof (lookup_lt_Some _ _ _ Hi) as Hlen.
  simpl. unfold worker_step. rewrite Hi.
  destruct pc; try done.
  - eexists _, (WRun j). split; [done|]. simpl.
    rewrite list_lookup_insert_eq by done. by destruct (job_call j).
  - destruct (job_call j) eqn:Hcall.
    + eexists _, WDec. split; [done|]. simpl. rewrite Hcall.
      by rewrite list_lookup_insert_eq.
    + eexists _, (WCatch e). split; [done|]. simpl. rewrite Hcall.
      by rewrite list_lookup_insert_eq.
  - eexists _, WDec. split; [done|]. simpl.
    by rewrite list_lookup_insert_eq.
  - eexists _, WNotify. split; [done|]. simpl.
    by rewrite list_lookup_insert_eq.
  - eexists _, WLoop. split; [done|]. simpl.
    by rewrite list_lookup_fmap, list_lookup_insert_eq.
Qed.

Lemma worker_exits n : ∀ i pc s,
  steps_to_exit pc = n →
  stop_flag_ s = true → queue_mutex_ s = false →
  threads_ s !! i = Some pc → w_holds pc = 0 → pc ≠ WBlocked →
  ∃ s', run (replicate n (EvWorker i)) s = Some s' ∧
    threads_ s' !! i = Some WExit ∧ queue_mutex_ s' = false ∧
    stop_flag_ s' = true ∧ dtor s' = dtor s ∧ jobs_ s' = jobs_ s.
Proof.
  induction n as [|n IH]; intros i pc s Hn Hstop Hm Hi Hh Hb.
  - exists s. destruct pc; simpl in *; try done;
      try (by destruct (job_call j)).
  - destruct (decide (w_running pc = 1)) as [Hrun|Hrun].
    + destruct (worker_step_in_hand i pc s Hi Hrun)
        as (s1 & pc1 & Hstep & Hi1 & Hsteps & Hh1 & Hb1 & Hm1 & Hs1 & Hd1 & Hj1).
      destruct (IH i pc1 s1) as (s' & Hrun' & ? & ? & ? & Hd' & Hj');
        [lia|congruence|congruence|done..|].
      exists s'. cbn [replicate run]. rewrite Hstep.
      split_and!; [done..|congruence|congruence].
    + destruct pc; try done.
      * simpl in Hn. simplify_eq.
        destruct (worker_exits_from_loop i s Hstop Hi)
          as (s' & ? & ? & ? & ? & ? & ?).
        exists s'. split_and!; [done..|congruence|done|done|done].
      * simpl in Hn. simplify_eq. cbn [replicate run step].
        unfold worker_step. rewrite Hi, Hm. unfold worker_pred.
        rewrite Hstop. simpl. eexists. split; [done|]. simpl.
        rewrite list_lookup_insert_eq by (by eapply lookup_lt_Some). done.
Qed.

Lemma join_remaining k m : ∀ n s,
  Inv k s → dtor s = DJoin n → queue_mutex_ s = false → n + m = k →
  ∃ tr s', Forall pool_event tr ∧ run tr s = Some s' ∧
    dtor s' = DDone ∧ jobs_ s' = jobs_ s.
Proof.
  induction m as [|m IH]; intros n s Hinv Hd Hm Hk.
  - exists [EvDestroy], (set_dtor DDone s). split; [by repeat constructor|].
    split; [|done]. simpl. unfold dtor_step. rewrite Hd.
    rewrite (proj2 (lookup_ge_None _ _)); [done|].
    rewrite (inv_len _ _ Hinv). lia.
  - pose proof (inv_dtor _ _ Hinv) as Hok. unfold dtor_ok in Hok.
    rewrite Hd in Hok. destruct Hok as (Hstop & Hblk & _).
    destruct (lookup_lt_is_Some_2 (threads_ s) n) as [pc Hpc].
    { rewrite (inv_len _ _ Hinv). lia. }
    pose proof (sum_list_with_lookup w_blocked _ _ _ Hpc) as Hb.
    pose proof (sum_list_with_lookup w_holds _ _ _ Hpc) as Hh.
    pose proof (inv_stop _ _ Hinv Hstop) as Hnone.
    unfold total in Hblk, Hnone.
    destruct (worker_exits (steps_to_exit pc) n pc s)
      as (s1 & Hrun1 & Hexit & Hm1 & Hstop1 & Hd1 & Hj1);
      [done|done|done|done|lia|intros ->; simpl in Hb; lia|].
    assert (step EvDestroy s1 = Some (set_dtor (DJoin (S n)) s1)) as Hjoin.
    { simpl. unfold dtor_step. by rewrite Hd1, Hd, Hexit. }
    destruct (IH (S n) (set_dtor (DJoin (S n)) s1))
      as (tr & s' & Htr & Hrun' & Hdone & Hj'); [|done|done|lia|].
    { eapply Inv_step; [|exact Hjoin]. eapply Inv_run; [exact Hinv|exact Hrun1]. }
    exists (replicate (steps_to_exit pc) (EvWorker n) ++ EvDestroy :: tr), s'.
    split_and!; [| |done|by rewrite Hj'].
    + apply Forall_app. split; [by apply Forall_replicate|by constructor].
    + rewrite run_app, Hrun1. simpl. simpl in Hjoin. by rewrite Hjoin.
Qed.

Lemma step_executed ev s s' :
  step ev s = Some s' → ∃ more, executed s' = executed s ++ more.
Proof.
  intros Hstep. destruct ev; step_cases Hstep; eauto using app_nil_r.
  all: exists []; by rewrite app_nil_r.
Qed.

Lemma run_executed tr : ∀ s s',
  run tr s = Some s' → ∃ more, executed s' = executed s ++ more.
Proof.
  induction tr as [|ev tr IH]; intros s s' Hrun; simpl in *.
  - simplify_eq. exists []. by rewrite app_nil_r.
  - destruct (step ev s) as [s1|] eqn:Hstep; [|done].
    destruct (step_executed _ _ _ Hstep) as [m1 H1].
    destruct (IH _ _ Hrun) as [m2 H2].
    exists (m1 ++ m2). by rewrite H2, H1, (assoc_L (++)).
Qed.

(** With [stop_flag_] set and no popped job waiting to be entered, no job is
    entered any more. *)
Lemma run_stopped_idle k tr s s' :
  Inv k s → stop_flag_ s = true →
  (∀ i pc, threads_ s !! i = Some pc → held_jobs pc = []) →
  run tr s = Some s' → executed s' = executed s.
Proof.
  intros Hinv Hstop Hidle Hrun.
  destruct (run_stopped _ _ _ _ Hinv Hstop Hrun) as [Hdeq _].
  destruct (run_executed _ _ _ Hrun) as [more Hmore].
  destruct more as [|j more]; [by rewrite Hmore, app_nil_r|].
  pose proof (inv_exec _ _ Hinv j) as He.
  pose proof (inv_exec _ _ (Inv_run _ _ _ _ Hinv Hrun) j) as He'.
  rewrite Hdeq, Hmore, occ_app, occ_cons in He'.
  assert (total (w_holding j) s = 0) as Hnone.
  { apply sum_list_with_zero. intros pc [i Hi]%list_elem_of_lookup.
    specialize (Hidle _ _ Hi). by destruct pc. }
  rewrite decide_True in He' by done. lia.
Qed.

(** X17.  Teardown does not wait for the queue, for the pause flag or for a
    job.  From every reachable state in which the destructor has not
    started, the mutex is free and no worker is between its pop and the
    return of [job()], the destructor and the workers alone (no
    notification from outside, no spurious wake-up, no [Resume]) can run
    the destructor to its end, whether or not the pool is paused and also
    with workers blocked in their wait.  None of these steps enters a job:
    the queue and the execution history are left as they were. *)
Theorem teardown_completes (k : nat) (s : JobPool) :
  reachable k s → dtor s = DAlive → queue_mutex_ s = false →
  (∀ i pc, threads_ s !! i = Some pc → held_jobs pc = []) →
  ∃ tr s', Forall pool_event tr ∧ run tr s = Some s' ∧
    dtor s' = DDone ∧ jobs_ s' = jobs_ s ∧ executed s' = executed s.
Proof.
  intros Hinv%reachable_Inv Hd Hm Hidle.
  assert (step EvDestroy s = Some (set_dtor DNotify (set_stop true s)))
    as Hrun1.
  { simpl. unfold dtor_step. by rewrite Hd, Hm. }
  assert (run [EvDestroy; EvDestroy] s
          = Some (set_dtor (DJoin 0) (notify_all (set_dtor DNotify (set_stop true s)))))
    as Hrun2.
  { simpl. unfold dtor_step at 1. rewrite Hd, Hm. done. }
  destruct (join_remaining k k 0 _ (Inv_run _ _ _ _ Hinv Hrun2))
    as (tr & s' & Htr & Hrun & Hdone & Hj); [done|done|done|].
  exists ([EvDestroy; EvDestroy] ++ tr), s'.
  split_and!; [by repeat constructor| |done|done|].
  - by rewrite run_app, Hrun2.
  - apply (run_stopped_idle k (EvDestroy :: tr)
             (set_dtor DNotify (set_stop true s)));
      [by eapply Inv_step|done|done|].
    cbn [run]. simpl in Hrun2. simpl. exact Hrun.
Qed.

(** A paused pool of two workers with a job queued: worker 0 is at the head
    of its loop, worker 1 went to sleep when the queue was still empty. *)
Lemma teardown_completes_witness :
  let s := default (JobPool_new 2)
             (run (Pause ++ replicate 3 (EvWorker 1) ++ [EvAddJob job_ok])
                (JobPool_new 2)) in
  (threads_ s = [WLoop; WBlocked] ∧ paused_ s = true ∧ jobs_ s = [job_ok]) ∧
  ∃ tr s', Forall pool_event tr ∧ run tr s = Some s' ∧
    dtor s' = DDone ∧ jobs_ s' = jobs_ s ∧ executed s' = executed s.
Proof.
  intros s. split; [vm_compute; by split_and!|].
  apply (teardown_completes 2 s).
  - exists (Pause ++ replicate 3 (EvWorker 1) ++ [EvAddJob job_ok]).
    vm_compute. reflexivity.
  - vm_compute. reflexivity.
  - vm_compute. reflexivity.
  - intros [|[|i]] pc Hi; vm_compute in Hi; by simplify_eq.
Defined.

(** ** Notifications sent without the mutex *)

Lemma idle_worker_step i s s' :
  jobs_ s = [] → total w_running s = 0 → step (EvWorker i) s = Some s' →
  jobs_ s' = [] ∧ total w_running s' = 0 ∧ waiters s' = waiters s ∧
  active_jobs_ s' = active_jobs_ s.
Proof.
  intros Hj Hr Hstep. unfold total in Hr. step_cases Hstep.
  all: try congruence.
  all: try (pose proof (sum_list_with_lookup w_running _ _ _ E) as Hle;
            simpl in Hle; lia).
  all: ins w_running; simpl in *.
  all: split_and!; [done|lia|done..].
Qed.

Lemma idle_workers_run tr : ∀ s s',
  Forall worker_event tr →
  jobs_ s = [] → total w_running s = 0 → run tr s = Some s' →
  jobs_ s' = [] ∧ waiters s' = waiters s ∧ active_jobs_ s' = active_jobs_ s.
Proof.
  induction tr as [|ev tr IH]; intros s s' Htr Hj Hr Hrun; simpl in *.
  - by simplify_eq.
  - destruct (step ev s) as [s1|] eqn:Hstep; [|done].
    apply Forall_cons in Htr as [Hev Htr]. destruct ev; try done.
    destruct (idle_worker_step _ _ _ Hj Hr Hstep) as (Hj1 & Hr1 & Hw1 & Ha1).
    destruct (IH _ _ Htr Hj1 Hr1 Hrun) as (? & ? & ?).
    split_and!; congruence.
Qed.

(** X18.  The wake-up of a caller of [WaitForAllJobs] can be lost.  The
    caller evaluates the drained predicate under the mutex while the last
    job is still counted in [active_jobs_]; the worker decrements and
    notifies (lines 71, 72, neither under the mutex) before the caller has
    entered [wait(lock)].  The pool is then drained, every submitted job
    has been entered, and the caller is blocked: it cannot move, and no step
    of a worker wakes it, however long the workers run. *)
Theorem drain_wakeup_can_be_lost :
  ∃ s, run lost_wakeup_schedule (JobPool_new 1) = Some s ∧
    submitted s = [job_ok] ∧ executed s = [job_ok] ∧
    threads_ s = [WLoop] ∧ queue_mutex_ s = false ∧
    drained s = true ∧ waiters s = [JBlocked] ∧
    step (EvWaiter 0) s = None ∧
    ∀ tr s', Forall worker_event tr → run tr s = Some s' →
      drained s' = true ∧ waiters s' = [JBlocked].
Proof.
  set (s := default (JobPool_new 1) (run lost_wakeup_schedule (JobPool_new 1))).
  exists s. split_and!; [vm_compute; reflexivity..|].
  intros tr s' Htr Hrun.
  assert (jobs_ s = []) as Hj0 by (vm_compute; reflexivity).
  assert (total w_running s = 0) as Hr0 by (vm_compute; reflexivity).
  destruct (idle_workers_run tr s s' Htr Hj0 Hr0 Hrun) as (Hj & Hw & Ha).
  split; [|by rewrite Hw]. unfold drained. by rewrite Hj, Ha.
Qed.

(** X19.  The wake-up of [Resume()] can be lost as well: a worker that found
    the pool paused and the queue empty, and enters [wait(lock)] only after
    [Resume()] has stored and notified, is blocked in a pool that is not
    paused.  It stays blocked until the next notification: the
    [notify_one] of the next [AddJob] takes it to the job. *)
Theorem resume_wakeup_can_be_lost :
  ∃ s, run lost_resume_schedule (JobPool_new 1) = Some s ∧
    paused_ s = false ∧ threads_ s = [WBlocked] ∧
    step (EvWorker 0) s = None ∧
    ∃ s', run (AddJob job_ok (Some (TWorker 0)) ++ replicate 3 (EvWorker 0)) s
          = Some s' ∧
      threads_ s' = [WInc job_ok] ∧ jobs_ s' = [].
Proof.
  exists (default (JobPool_new 1) (run lost_resume_schedule (JobPool_new 1))).
  split_and!; [vm_compute; reflexivity..|].
  exists (default (JobPool_new 1)
            (run (lost_resume_schedule ++ AddJob job_ok (Some (TWorker 0))
                  ++ replicate 3 (EvWorker 0)) (JobPool_new 1))).
  vm_compute. split_and!; reflexivity.
Qed.
